(** * Deferred-invocation task schedulers of the forward/move examples

    A shallow embedding of

    - [ResourceManager] of [examples/move_semantics.cpp]
      (constructors and assignment operators),
    - namespace [TaskScheduler] of [examples/comprehensive_example.cpp]
      (the FIFO scheduler with anonymous and named tasks),
    - namespace [CacheSystem] of the same file (the LRU cache),
    - namespace [ModernAsyncDesign] of [examples/cpp20_advanced.cpp]
      (the scheduler that sorts by priority before it runs),
    - namespace [AdvancedTemplates] of the same file (serialization),

    followed by the properties of the schedulers that the specification
    states, and by further properties of all of them read off the code.

    Conventions of the embedding.

    - A [std::function<void()>] that a caller hands in is either empty or
      holds a target; a target is a function from the state of the world
      it acts on to the state it leaves, together with the exception that
      escaped from it, if any.  The type of worlds is a parameter.
    - The lambda that [schedule_task] puts into a [std::function] is
      spelled out: the object holds the callable and the tuple it
      captured, and a call leaves the tuple as the callable leaves it.
    - A member function takes the object and returns the object as it is
      left; a function that may be left by an exception returns the
      exception next to the state reached when it was thrown.
    - The diagnostic lines the classes write to [std::cout] are left out.
    - A task body acts on the world, not on the scheduler that holds the
      task (a body that added a task to the vector while [execute_all]
      walks it would leave C++ undefined).
    - [std::map<std::string, V>] is the list of its entries in iteration
      order, [std::vector<V>] is a list, [size_t] is [nat], [int] is [Z].
    - [std::sort] is a parameter of the code that calls it; what the
      standard promises of it is [StdSort.contract], and what libstdc++
      does is [Libstdcxx.sort].  The elements of a [std::tuple] are built
      in the order libstdc++ builds them. *)

From Stdlib Require Import List String Ascii ZArith Lia Bool.
From Stdlib Require Import Permutation Sorted OrderedTypeEx.
From Stdlib Require Import DecimalString DecimalZ.
Import ListNotations.

Local Open Scope string_scope.
Local Open Scope list_scope.

(* ================================================================== *)
(** * Definitions *)
(* ================================================================== *)

(** ** Calls, exceptions, range-for *)

(** The exceptions that matter here: the one the library throws when an
    empty [std::function] is called, and whatever a task body throws. *)
Inductive exception : Type :=
| bad_function_call
| runtime_error (what : string).

Section Calls.
Variable World : Type.

(** How a call of a [void()] callable ends. *)
Definition completion : Type := (World * option exception)%type.

Definition body : Type := World -> completion.

(** [std::function<void()>]. *)
Definition function_void : Type := option body.

(** [f()] on a [std::function<void()>]. *)
Definition invoke (f : function_void) : body :=
  fun w =>
    match f with
    | Some target => target w
    | None => (w, Some bad_function_call)
    end.

(** [for (auto& x : xs) call(x);] : the elements front to back; an
    exception leaves the loop at once. *)
Fixpoint for_each {A : Type} (call : A -> body) (xs : list A) : body :=
  fun w =>
    match xs with
    | [] => (w, None)
    | x :: rest =>
        match call x w with
        | (w', None) => for_each call rest w'
        | (w', Some e) => (w', Some e)
        end
    end.

(** The same loop when the call changes the element it is made on:
    the elements as the loop leaves them, and how the loop ends. *)
Fixpoint for_each_ref {A : Type} (call : A -> World -> A * completion)
    (xs : list A) (w : World) : list A * completion :=
  match xs with
  | [] => ([], (w, None))
  | x :: rest =>
      match call x w with
      | (x', (w', None)) =>
          let (rest', ended) := for_each_ref call rest w' in
          (x' :: rest', ended)
      | (x', (w', Some e)) => (x' :: rest, (w', Some e))
      end
  end.

(** For statements on the order of calls: [first], and when it returns
    [next]; nothing at all; the calls of a list one after the other. *)
Definition and_then (first next : body) : body :=
  fun w =>
    match first w with
    | (w', None) => next w'
    | (w', Some e) => (w', Some e)
    end.

Definition nothing : body := fun w => (w, None).

Definition in_order (calls : list body) : body :=
  fold_right and_then nothing calls.
End Calls.

Arguments invoke {World} f w.
Arguments for_each {World A} call xs w.
Arguments for_each_ref {World A} call xs w.
Arguments and_then {World} first next w.
Arguments nothing {World} w.
Arguments in_order {World} calls w.

(** A member function that can be left by an exception returns the object,
    the world and the exception; these are the object it leaves and what
    the call did. *)
Definition object_after {O World : Type} (r : O * World * option exception)
  : O := fst (fst r).

Definition completion_of {O World : Type} (r : O * World * option exception)
  : completion World := (snd (fst r), snd r).

(** ** std::map with std::string keys *)

Module StdMap.
Section Map.
Variable V : Type.

(** The entries in iteration order. *)
Definition t : Type := list (string * V).

Definition empty : t := [].

Definition keys (m : t) : list string := map fst m.

Definition size (m : t) : nat := List.length m.

Fixpoint find (k : string) (m : t) : option V :=
  match m with
  | [] => None
  | (k', v) :: m' => if String.eqb k k' then Some v else find k m'
  end.

(** [m[k] = v] : the entry of an equal key gets the new mapped value,
    otherwise a new entry goes to its place in key order. *)
Fixpoint assign (k : string) (v : V) (m : t) : t :=
  match m with
  | [] => [(k, v)]
  | (k', v') :: m' =>
      match String.compare k k' with
      | Lt => (k, v) :: (k', v') :: m'
      | Eq => (k', v) :: m'
      | Gt => (k', v') :: assign k v m'
      end
  end.

(** The order [std::less<std::string>] on the keys. *)
Definition key_lt (a b : string) : Prop := String.compare a b = Lt.

(** The invariant of the container: keys strictly ascending. *)
Definition ordered (m : t) : Prop := StronglySorted key_lt (keys m).
End Map.

Arguments empty {V}.
Arguments keys {V} m.
Arguments size {V} m.
Arguments find {V} k m.
Arguments assign {V} k v m.
Arguments ordered {V} m.
End StdMap.

(** ** std::sort *)

Module StdSort.
Section Sort.
Variable A : Type.

(** What the standard asks of the comparison. *)
Record strict_weak_order (comp : A -> A -> bool) : Prop := {
  swo_irrefl : forall x, comp x x = false;
  swo_trans : forall x y z,
      comp x y = true -> comp y z = true -> comp x z = true;
  swo_incomp : forall x y z,
      comp x y = false -> comp y x = false ->
      comp y z = false -> comp z y = false ->
      comp x z = false /\ comp z x = false
}.

(** Sorted with respect to [comp]: no element is before an earlier
    one. *)
Definition sorted (comp : A -> A -> bool) (l : list A) : Prop :=
  StronglySorted (fun x y => comp y x = false) l.

(** What the standard promises of [std::sort(first, last, comp)]: the
    range holds the same elements, sorted.  Nothing on elements that
    compare equivalent. *)
Definition contract (sort : (A -> A -> bool) -> list A -> list A) : Prop :=
  forall comp l,
    strict_weak_order comp ->
    Permutation l (sort comp l) /\ sorted comp (sort comp l).

(** Two ways to meet it.  Both are insertion sorts that take the
    elements from the back of the range.  The first stops an element
    at the first one that is not before it, so in front of those
    equivalent to it; the second stops it at the first one that is
    after it, so behind those equivalent to it. *)
Fixpoint insert_before_ties (comp : A -> A -> bool) (x : A) (l : list A)
  : list A :=
  match l with
  | [] => [x]
  | y :: l' =>
      if comp y x then y :: insert_before_ties comp x l' else x :: y :: l'
  end.

Fixpoint insert_after_ties (comp : A -> A -> bool) (x : A) (l : list A)
  : list A :=
  match l with
  | [] => [x]
  | y :: l' =>
      if comp x y then x :: y :: l' else y :: insert_after_ties comp x l'
  end.

Definition sort_keeping_ties (comp : A -> A -> bool) (l : list A) : list A :=
  fold_right (insert_before_ties comp) [] l.

Definition sort_swapping_ties (comp : A -> A -> bool) (l : list A) : list A :=
  fold_right (insert_after_ties comp) [] l.

(** The insertion sort that takes the elements from the front of the
    range: the elements of [p] put into [sorted_so_far] one after the
    other, each behind the elements it is not before. *)
Definition inserted (comp : A -> A -> bool) (p sorted_so_far : list A)
  : list A :=
  fold_left (fun l x => insert_after_ties comp x l) p sorted_so_far.
End Sort.

Arguments strict_weak_order {A} comp.
Arguments sorted {A} comp l.
Arguments contract {A} sort.
Arguments insert_before_ties {A} comp x l.
Arguments insert_after_ties {A} comp x l.
Arguments sort_keeping_ties {A} comp l.
Arguments sort_swapping_ties {A} comp l.
Arguments inserted {A} comp p sorted_so_far.
End StdSort.

(** ** std::sort as libstdc++ has it

    [std::sort] of libstdc++, the library of GCC (version 12,
    [bits/stl_algo.h] and [bits/stl_heap.h]): introsort down to ranges of
    16 elements, heap sort when the recursion gets too deep, and one
    insertion sort over the whole range at the end.  The range is a list,
    an iterator is a position in it.  The loops of the library that test
    no bound end inside the range when the comparison is a strict weak
    order; here each of them has a bound that it does not reach then (the
    length of the list, or the position it starts from), and a comparison
    with a position outside the list is [false]. *)

Module Libstdcxx.
Section Sort.
Variable A : Type.
Variable comp : A -> A -> bool.

(** [begin[i] = std::move(v)] *)
Fixpoint assign (i : nat) (v : A) (l : list A) : list A :=
  match l, i with
  | [], _ => []
  | _ :: l', 0 => v :: l'
  | x :: l', S i' => x :: assign i' v l'
  end.

(** [begin[j] = std::move(begin[i])] *)
Definition move (i j : nat) (l : list A) : list A :=
  match nth_error l i with
  | Some v => assign j v l
  | None => l
  end.

(** [std::iter_swap(begin + i, begin + j)] *)
Definition iter_swap (i j : nat) (l : list A) : list A :=
  match nth_error l i, nth_error l j with
  | Some a, Some b => assign j a (assign i b l)
  | _, _ => l
  end.

(** [__comp(begin + i, begin + j)], [__comp(val, begin + j)] and
    [__comp(begin + i, val)] *)
Definition comp_iter (l : list A) (i j : nat) : bool :=
  match nth_error l i, nth_error l j with
  | Some a, Some b => comp a b
  | _, _ => false
  end.

Definition comp_val_iter (l : list A) (val : A) (j : nat) : bool :=
  match nth_error l j with
  | Some b => comp val b
  | None => false
  end.

Definition comp_iter_val (l : list A) (i : nat) (val : A) : bool :=
  match nth_error l i with
  | Some a => comp a val
  | None => false
  end.

(** [__move_median_to_first(result, a, b, c, comp)] *)
Definition move_median_to_first (result a b c : nat) (l : list A) : list A :=
  if comp_iter l a b then
    if comp_iter l b c then iter_swap result b l
    else if comp_iter l a c then iter_swap result c l
    else iter_swap result a l
  else if comp_iter l a c then iter_swap result a l
  else if comp_iter l b c then iter_swap result c l
  else iter_swap result b l.

(** The loop of [__unguarded_linear_insert(last, comp)], with [val]
    taken out of the element at [last]. *)
Fixpoint linear_insert (val : A) (last : nat) (l : list A) : list A :=
  match last with
  | 0 => assign 0 val l
  | S next =>
      if comp_val_iter l val next
      then linear_insert val next (move next last l)
      else assign last val l
  end.

(** [__unguarded_linear_insert(begin + last, comp)] *)
Definition unguarded_linear_insert (last : nat) (l : list A) : list A :=
  match nth_error l last with
  | Some val => linear_insert val last l
  | None => l
  end.

(** [std::move_backward(begin + first, begin + first + count,
    begin + first + count + 1)] *)
Fixpoint move_backward (first count : nat) (l : list A) : list A :=
  match count with
  | 0 => l
  | S c => move_backward first c (move (first + c) (first + S c) l)
  end.

(** The body of the loop of [__insertion_sort] for [begin + i]. *)
Definition insertion_step (first i : nat) (l : list A) : list A :=
  if comp_iter l i first then
    match nth_error l i with
    | Some val => assign first val (move_backward first (i - first) l)
    | None => l
    end
  else unguarded_linear_insert i l.

(** [__insertion_sort(begin + first, begin + last, comp)] *)
Definition insertion_sort (first last : nat) (l : list A) : list A :=
  fold_left (fun l' i => insertion_step first i l')
    (seq (S first) (last - S first)) l.

(** [__unguarded_insertion_sort(begin + first, begin + last, comp)] *)
Definition unguarded_insertion_sort (first last : nat) (l : list A)
  : list A :=
  fold_left (fun l' i => unguarded_linear_insert i l')
    (seq first (last - first)) l.

Definition _S_threshold : nat := 16.

(** [__final_insertion_sort(begin + first, begin + last, comp)] *)
Definition final_insertion_sort (first last : nat) (l : list A) : list A :=
  if (_S_threshold <? last - first)%nat then
    unguarded_insertion_sort (first + _S_threshold) last
      (insertion_sort first (first + _S_threshold) l)
  else insertion_sort first last l.

(** [while (__comp(first, pivot)) ++first;] *)
Fixpoint forward_to (steps first pivot : nat) (l : list A) : nat :=
  match steps with
  | 0 => first
  | S steps' =>
      if comp_iter l first pivot then forward_to steps' (S first) pivot l
      else first
  end.

(** [while (__comp(pivot, last)) --last;] *)
Fixpoint backward_to (steps last pivot : nat) (l : list A) : nat :=
  match steps with
  | 0 => last
  | S steps' =>
      if comp_iter l pivot last then backward_to steps' (last - 1) pivot l
      else last
  end.

(** [__unguarded_partition(begin + first, begin + last, begin + pivot,
    comp)]: the cut and the range. *)
Fixpoint unguarded_partition (rounds first last pivot : nat) (l : list A)
  : nat * list A :=
  match rounds with
  | 0 => (first, l)
  | S rounds' =>
      let first1 := forward_to (List.length l) first pivot l in
      let last1 := backward_to (List.length l) (last - 1) pivot l in
      if (first1 <? last1)%nat
      then unguarded_partition rounds' (S first1) last1 pivot
             (iter_swap first1 last1 l)
      else (first1, l)
  end.

(** [__unguarded_partition_pivot(begin + first, begin + last, comp)] *)
Definition unguarded_partition_pivot (first last : nat) (l : list A)
  : nat * list A :=
  let mid := first + (last - first) / 2 in
  unguarded_partition (List.length l) (first + 1) last first
    (move_median_to_first first (first + 1) mid (last - 1) l).

(** [__push_heap(begin + first, holeIndex, topIndex, value, comp)] *)
Fixpoint push_heap (steps first holeIndex topIndex : nat) (value : A)
    (l : list A) : list A :=
  let parent := (holeIndex - 1) / 2 in
  match steps with
  | 0 => assign (first + holeIndex) value l
  | S steps' =>
      if (topIndex <? holeIndex)%nat && comp_iter_val l (first + parent) value
      then push_heap steps' first parent topIndex value
             (move (first + parent) (first + holeIndex) l)
      else assign (first + holeIndex) value l
  end.

(** The first loop of [__adjust_heap]: the hole goes down to a leaf. *)
Fixpoint hole_down (steps first hole len : nat) (l : list A)
  : nat * list A :=
  match steps with
  | 0 => (hole, l)
  | S steps' =>
      if (hole <? (len - 1) / 2)%nat then
        let right := 2 * (hole + 1) in
        let child :=
          if comp_iter l (first + right) (first + (right - 1))
          then right - 1 else right in
        hole_down steps' first child len
          (move (first + child) (first + hole) l)
      else (hole, l)
  end.

(** [__adjust_heap(begin + first, holeIndex, len, value, comp)] *)
Definition adjust_heap (first holeIndex len : nat) (value : A)
    (l : list A) : list A :=
  let (hole, l1) := hole_down len first holeIndex len l in
  let (hole', l2) :=
    if Nat.even len && (2 <=? len)%nat && (hole =? (len - 2) / 2)%nat then
      let right := 2 * (hole + 1) in
      (right - 1, move (first + (right - 1)) (first + hole) l1)
    else (hole, l1) in
  push_heap hole' first hole' holeIndex value l2.

(** [__pop_heap(begin + first, begin + last, begin + result, comp)] *)
Definition pop_heap (first last result : nat) (l : list A) : list A :=
  match nth_error l result with
  | Some value =>
      adjust_heap first 0 (last - first) value (move first result l)
  | None => l
  end.

(** The loop of [__make_heap], from [parent] down to 0. *)
Fixpoint heapify (parent first len : nat) (l : list A) : list A :=
  let l1 :=
    match nth_error l (first + parent) with
    | Some value => adjust_heap first parent len value l
    | None => l
    end in
  match parent with
  | 0 => l1
  | S parent' => heapify parent' first len l1
  end.

(** [__make_heap(begin + first, begin + last, comp)] *)
Definition make_heap (first last : nat) (l : list A) : list A :=
  let len := last - first in
  if (len <? 2)%nat then l else heapify ((len - 2) / 2) first len l.

(** [__heap_select(begin + first, begin + middle, begin + last, comp)] *)
Definition heap_select (first middle last : nat) (l : list A) : list A :=
  fold_left
    (fun l' i => if comp_iter l' i first then pop_heap first middle i l'
                 else l')
    (seq middle (last - middle)) (make_heap first middle l).

(** [__sort_heap(begin + first, begin + last, comp)] *)
Fixpoint sort_heap_loop (first count : nat) (l : list A) : list A :=
  match count with
  | 0 => l
  | S count' =>
      if (1 <? S count')%nat
      then sort_heap_loop first count'
             (pop_heap first (first + count') (first + count') l)
      else l
  end.

Definition sort_heap (first last : nat) (l : list A) : list A :=
  sort_heap_loop first (last - first) l.

(** [__partial_sort(begin + first, begin + middle, begin + last, comp)] *)
Definition partial_sort (first middle last : nat) (l : list A) : list A :=
  sort_heap first middle (heap_select first middle last l).

(** [__introsort_loop(begin + first, begin + last, depth_limit, comp)] *)
Fixpoint introsort_loop (depth_limit first last : nat) (l : list A)
  : list A :=
  if (_S_threshold <? last - first)%nat then
    match depth_limit with
    | 0 => partial_sort first last last l
    | S depth_limit' =>
        let (cut, l1) := unguarded_partition_pivot first last l in
        introsort_loop depth_limit' first cut
          (introsort_loop depth_limit' cut last l1)
    end
  else l.

(** [std::sort(begin, end, comp)] *)
Definition sort (l : list A) : list A :=
  match l with
  | [] => []
  | _ :: _ =>
      let n := List.length l in
      final_insertion_sort 0 n (introsort_loop (Nat.log2 n * 2) 0 n l)
  end.
End Sort.

Arguments assign {A} i v l.
Arguments move {A} i j l.
Arguments iter_swap {A} i j l.
Arguments comp_iter {A} comp l i j.
Arguments comp_val_iter {A} comp l val j.
Arguments comp_iter_val {A} comp l i val.
Arguments move_median_to_first {A} comp result a b c l.
Arguments linear_insert {A} comp val last l.
Arguments unguarded_linear_insert {A} comp last l.
Arguments move_backward {A} first count l.
Arguments insertion_step {A} comp first i l.
Arguments insertion_sort {A} comp first last l.
Arguments unguarded_insertion_sort {A} comp first last l.
Arguments final_insertion_sort {A} comp first last l.
Arguments forward_to {A} comp steps first pivot l.
Arguments backward_to {A} comp steps last pivot l.
Arguments unguarded_partition {A} comp rounds first last pivot l.
Arguments unguarded_partition_pivot {A} comp first last l.
Arguments push_heap {A} comp steps first holeIndex topIndex value l.
Arguments hole_down {A} comp steps first hole len l.
Arguments adjust_heap {A} comp first holeIndex len value l.
Arguments pop_heap {A} comp first last result l.
Arguments heapify {A} comp parent first len l.
Arguments make_heap {A} comp first last l.
Arguments heap_select {A} comp first middle last l.
Arguments sort_heap_loop {A} comp first count l.
Arguments sort_heap {A} comp first last l.
Arguments partial_sort {A} comp first middle last l.
Arguments introsort_loop {A} comp depth_limit first last l.
Arguments sort {A} comp l.
End Libstdcxx.

(** ** Copy and move construction *)

(** A class type with a copy constructor [T(const T&)] and a move
    constructor [T(T&&)].  The copy constructor cannot change its source;
    the move constructor returns the new object and its source as it
    leaves it. *)
Class Constructible (T : Type) : Type := {
  copy_construct : T -> T;
  move_construct : T -> T * T
}.

(** [int], and every type that has no move constructor of its own: to
    move is to copy. *)
#[global] Instance int_Constructible : Constructible Z :=
  {| copy_construct := fun v => v; move_construct := fun v => (v, v) |}.

(** A class type with a copy assignment [T& operator=(const T&)] and a
    move assignment [T& operator=(T&&)], both applied to an object other
    than the one assigned to.  Copy assignment returns the object assigned
    to; move assignment returns it and its source as it is left. *)
Class Assignable (T : Type) : Type := {
  copy_assign : T -> T -> T;
  move_assign : T -> T -> T * T
}.

(** ** move_semantics.cpp: ResourceManager *)

Module MoveSemantics.

(** [static_cast<int>(i)] for a [size_t]. *)
Definition to_int (i : nat) : Z :=
  ((Z.of_nat i + 2 ^ 31) mod 2 ^ 32 - 2 ^ 31)%Z.

(** [data] is the [unique_ptr<int[]>]: [None] for [nullptr], else the
    array it owns. *)
Record ResourceManager : Type := {
  data : option (list Z);
  size : nat;
  name : string
}.

(** [ResourceManager()] *)
Definition default_ctor : ResourceManager :=
  {| data := None; size := 0; name := "empty" |}.

(** [ResourceManager(size_t s, const std::string& n)] *)
Definition ctor (s : nat) (n : string) : ResourceManager :=
  {| data := Some (map to_int (seq 0 s)); size := s; name := n |}.

(** [std::copy(src, src + n, dst)] on arrays that hold [n] elements
    each. *)
Definition std_copy (src : list Z) (n : nat) (dst : list Z) : list Z :=
  firstn n src ++ skipn n dst.

(** [ResourceManager(const ResourceManager& other)] *)
Definition copy_ctor (other : ResourceManager) : ResourceManager :=
  let fresh :=
    if (0 <? size other)%nat then Some (repeat 0%Z (size other)) else None in
  {| data :=
       match fresh, data other with
       | Some dst, Some src => Some (std_copy src (size other) dst)
       | _, _ => fresh
       end;
     size := size other;
     name := name other ++ "_copy" |}.

(** [ResourceManager(ResourceManager&& other) noexcept]: the new object
    takes the pointer, the size and the name; [other] is left with a
    null pointer, size 0 and the name "moved_from". *)
Definition move_ctor (other : ResourceManager)
  : ResourceManager * ResourceManager :=
  ({| data := data other; size := size other; name := name other |},
   {| data := None; size := 0; name := "moved_from" |}).

#[global] Instance ResourceManager_Constructible
  : Constructible ResourceManager :=
  {| copy_construct := copy_ctor; move_construct := move_ctor |}.

Definition getName (r : ResourceManager) : string := name r.
Definition getSize (r : ResourceManager) : nat := size r.
Definition getData (r : ResourceManager) : option (list Z) := data r.

(** The state the move constructor leaves its source in. *)
Definition moved_from (r : ResourceManager) : Prop :=
  data r = None /\ size r = 0 /\ name r = "moved_from".

(** What the constructors establish: the pointer is null and the size 0,
    or the array holds [size] elements. *)
Definition consistent (r : ResourceManager) : Prop :=
  match data r with
  | Some array => List.length array = size r
  | None => size r = 0
  end.

(** The body of [operator=(const ResourceManager& other)] behind the test
    [this != &other].  With a positive [other.size] it reads [other.data]
    without the test for null that the copy constructor has: [None] is for
    this read through a null pointer. *)
Definition copy_assign_other (this other : ResourceManager)
  : option ResourceManager :=
  if (0 <? size other)%nat then
    match data other with
    | Some src =>
        Some {| data := Some (std_copy src (size other)
                                (repeat 0%Z (size other)));
                size := size other;
                name := name other ++ "_assigned" |}
    | None => None
    end
  else
    Some {| data := None;
            size := size other;
            name := name other ++ "_assigned" |}.

(** The body of [operator=(ResourceManager&& other)] behind the test
    [this != &other]: the object assigned to and [other] as it is left. *)
Definition move_assign_other (this other : ResourceManager)
  : ResourceManager * ResourceManager :=
  ({| data := data other; size := size other; name := name other |},
   {| data := None; size := 0; name := "moved_from" |}).

(** [x = y;] and [x = std::move(y);] on variables of the caller; the
    assignment of a variable to itself does nothing. *)
Definition copy_assign_at (x y : string) (f : string -> ResourceManager)
  : option (string -> ResourceManager) :=
  if String.eqb x y then Some f
  else
    match copy_assign_other (f x) (f y) with
    | Some assigned =>
        Some (fun z => if String.eqb z x then assigned else f z)
    | None => None
    end.

Definition move_assign_at (x y : string) (f : string -> ResourceManager)
  : string -> ResourceManager :=
  if String.eqb x y then f
  else
    let (assigned, left) := move_assign_other (f x) (f y) in
    fun z =>
      if String.eqb z x then assigned
      else if String.eqb z y then left
      else f z.

(** [createLargeObject(size, name)]: the object is built in place. *)
Definition createLargeObject (s : nat) (n : string) : ResourceManager :=
  ctor s n.

End MoveSemantics.

(** ** The caller of a forwarding function *)

(** What stands at an argument position of the call: the name of a
    variable, [std::move] of a variable, [std::move] of a variable that
    is declared [const], or a temporary. *)
Inductive argument (T : Type) : Type :=
| lvalue (x : string)
| xvalue (x : string)
| const_xvalue (x : string)
| prvalue (v : T).

Arguments lvalue {T} x.
Arguments xvalue {T} x.
Arguments const_xvalue {T} x.
Arguments prvalue {T} v.

Section Caller.
Context {T : Type} `{Constructible T}.

(** The variables of the caller. *)
Definition frame : Type := string -> T.

Definition update (x : string) (v : T) (f : frame) : frame :=
  fun y => if String.eqb y x then v else f y.

(** One element of [std::make_tuple(std::forward<Args>(args)...)]: a
    copy of an lvalue, the object moved out of an rvalue.  An rvalue
    of a [const] object binds to the copy constructor, so it is copied.
    Returns the element and the variables of the caller afterwards. *)
Definition forward_into_tuple (a : argument T) (f : frame) : T * frame :=
  match a with
  | lvalue x => (copy_construct (f x), f)
  | xvalue x =>
      let (element, left) := move_construct (f x) in
      (element, update x left f)
  | const_xvalue x => (copy_construct (f x), f)
  | prvalue v => (fst (move_construct v), f)
  end.

(** The elements of the tuple, listed in the order of the pack.  They
    are built from the last to the first: the tuple of libstdc++ keeps
    the elements behind the first in a base class, and a base class is
    initialized before the member.  (The standard leaves the order open;
    it shows only when one variable is named by several arguments.) *)
Fixpoint make_tuple (args : list (argument T)) (f : frame)
  : list T * frame :=
  match args with
  | [] => ([], f)
  | a :: rest =>
      let (elements, f1) := make_tuple rest f in
      let (element, f2) := forward_into_tuple a f1 in
      (element :: elements, f2)
  end.

(** [std::get<I>(tuple)] inside a pack expansion over [I]. *)
Definition get (I : nat) (tuple : list T) : list T :=
  match nth_error tuple I with
  | Some v => [v]
  | None => []
  end.

(** [std::make_index_sequence<N>] *)
Definition make_index_sequence (N : nat) : list nat := seq 0 N.
End Caller.

Arguments frame T : clear implicits.

(** ** comprehensive_example.cpp: namespace TaskScheduler *)

Module TaskScheduler.
Section Scheduler.
Variable World : Type.

(** [using Task = std::function<void()>;] *)
Definition Task : Type := function_void World.

(** What [schedule_task] asks of the type [Func] of its callable: that
    [func(std::get<I>(std::move(args))...)] is a call.  The call is
    handed the elements of the tuple as rvalues; it returns the elements
    as it leaves them, next to the way it ends. *)
Class Callable (T Func : Type) : Type := {
  call : Func -> list T -> World -> list T * completion World
}.

(** A callable whose parameters are references to const: it reads the
    elements and leaves them as they are. *)
#[global] Instance by_reference (T : Type)
  : Callable T (list T -> body World) :=
  {| call := fun func elements w => (elements, func elements w) |}.

(** A callable whose parameters are objects: each parameter is
    move-constructed from its element, then the body runs on the
    parameters. *)
Record by_value (T : Type) : Type := taking {
  function_body : list T -> body World
}.

#[global] Instance by_value_Callable (T : Type) `{Constructible T}
  : Callable T (by_value T) :=
  {| call := fun func elements w =>
       (map (fun v => snd (move_construct v)) elements,
        function_body T func
          (map (fun v => fst (move_construct v)) elements) w) |}.

(** [func(std::get<I>(std::forward<Tuple>(tuple))...)] *)
Definition call_with_tuple {T Func : Type} {callable : Callable T Func}
    (func : Func) (tuple : list T) (I : list nat)
  : World -> list T * completion World :=
  call func (flat_map (fun i => get i tuple) I).

(** The object of the lambda expression in [schedule_task]: what it
    captured, [func] and [args], with [sizeof...(Args)].  ([scheduler_ptr]
    is the scheduler that holds the object.) *)
Record Lambda : Type := {
  Args : Type;
  Func : Type;
  Func_Callable : Callable Args Func;
  func : Func;
  args : list Args;
  sizeof_Args : nat
}.

(** [operator()] of the lambda.  The lambda is [mutable] and hands its
    tuple on as an rvalue: the object is left with the elements as the
    callable leaves them. *)
Definition Lambda_call (c : Lambda) (w : World)
  : Lambda * completion World :=
  let called :=
    call_with_tuple (callable := Func_Callable c) (func c) (args c)
      (make_index_sequence (sizeof_Args c)) w in
  ({| Func_Callable := Func_Callable c;
      func := func c;
      args := fst called;
      sizeof_Args := sizeof_Args c |},
   snd called).

(** [vector] is the [std::vector<Task> tasks]: each function in it is
    empty or holds an object of the lambda (only [schedule_task] puts
    a function there).  [namedTasks] is the [std::map<std::string, Task>];
    a function a caller hands in is taken as a function of the world. *)
Record Scheduler : Type := {
  vector : list (option Lambda);
  namedTasks : StdMap.t Task
}.

(** [task()] on a function of the vector: the function as the call
    leaves it, and how the call ends. *)
Definition call_function (t : option Lambda) (w : World)
  : option Lambda * completion World :=
  match t with
  | Some c => (Some (fst (Lambda_call c w)), snd (Lambda_call c w))
  | None => (None, (w, Some bad_function_call))
  end.

(** A function of the vector as a [Task]: what its next call does. *)
Definition as_Task (t : option Lambda) : Task :=
  match t with
  | Some c => Some (fun w => snd (Lambda_call c w))
  | None => None
  end.

(** The tasks of the vector. *)
Definition tasks (s : Scheduler) : list Task := map as_Task (vector s).

(** [Scheduler scheduler;] *)
Definition Scheduler_ctor : Scheduler :=
  {| vector := []; namedTasks := StdMap.empty |}.

Section Template.
Context {T : Type} `{Constructible T} {Func : Type} `{Callable T Func}.

(** The closure [schedule_task] builds: it holds [func] and the
    tuple; the closure object, and the tuple in it, is moved once
    more when the [std::function] in the vector is made from it. *)
Definition closure (func : Func) (tuple : list T) (N : nat) : Lambda :=
  {| func := func;
     args := map (fun v => fst (move_construct v)) tuple;
     sizeof_Args := N |}.

(** [schedule_task(func, args...)], called with the variables [f] of
    the caller in scope.  Returns the scheduler and the variables of
    the caller after the call. *)
Definition schedule_task (func : Func)
    (args : list (argument T)) (f : frame T) (s : Scheduler)
  : Scheduler * frame T :=
  let (tuple, f') := make_tuple args f in
  ({| vector := vector s ++ [Some (closure func tuple (List.length args))];
      namedTasks := namedTasks s |},
   f').
End Template.

(** [schedule_named_task(name, task)] *)
Definition schedule_named_task (name : string) (task : Task)
    (s : Scheduler) : Scheduler :=
  {| vector := vector s;
     namedTasks := StdMap.assign name task (namedTasks s) |}.

(** [execute_all()].  An exception from a task leaves the function
    where it is thrown: the vector is not cleared then, and the
    functions that were called are left as their calls left them. *)
Definition execute_all (s : Scheduler) (w : World)
  : Scheduler * World * option exception :=
  match for_each_ref call_function (vector s) w with
  | (called, (w1, Some e)) =>
      ({| vector := called; namedTasks := namedTasks s |}, w1, Some e)
  | (_, (w1, None)) =>
      let s1 := {| vector := []; namedTasks := namedTasks s |} in
      let (w2, thrown) :=
        for_each (fun pair => invoke (snd pair)) (namedTasks s1) w1 in
      (s1, w2, thrown)
  end.

Definition getTaskCount (s : Scheduler) : nat :=
  List.length (tasks s) + StdMap.size (namedTasks s).

(** The schedulers a program can hold. *)
Inductive reachable : Scheduler -> Prop :=
| reachable_ctor : reachable Scheduler_ctor
| reachable_schedule_task :
    forall (T : Type) (C : Constructible T)
           (Func : Type) (F : Callable T Func) (func : Func) args f s,
      reachable s -> reachable (fst (schedule_task func args f s))
| reachable_schedule_named_task :
    forall name task s,
      reachable s -> reachable (schedule_named_task name task s)
| reachable_execute_all :
    forall s w,
      reachable s -> reachable (object_after (execute_all s w)).
End Scheduler.

Arguments Callable World T Func : clear implicits.
Arguments call {World T Func _} func elements w.
Arguments by_value World T : clear implicits.
Arguments taking {World T} function_body.
Arguments function_body {World T} b.
Arguments call_with_tuple {World T Func _} func tuple I w.
Arguments Args {World} l.
Arguments Func {World} l.
Arguments Func_Callable {World} l.
Arguments func {World} l.
Arguments args {World} l.
Arguments sizeof_Args {World} l.
Arguments Lambda_call {World} c w.
Arguments vector {World}.
Arguments namedTasks {World}.
Arguments call_function {World} t w.
Arguments as_Task {World} t.
Arguments tasks {World} s.
Arguments Scheduler_ctor {World}.
Arguments closure {World T _ Func _}.
Arguments schedule_task {World T _ Func _}.
Arguments schedule_named_task {World}.
Arguments execute_all {World}.
Arguments getTaskCount {World}.
Arguments reachable {World}.
End TaskScheduler.

(** ** cpp20_advanced.cpp: namespace ModernAsyncDesign *)

Module ModernAsyncDesign.
Section Scheduler.
Variable World : Type.

Record Task : Type := {
  task_func : function_void World;
  task_name : string;
  priority : Z
}.

(** [Task(std::string name, int prio, Func&& func)] *)
Definition Task_ctor (name : string) (prio : Z)
    (func : function_void World) : Task :=
  {| task_func := func; task_name := name; priority := prio |}.

(** [void execute() const] *)
Definition execute (t : Task) : body World :=
  fun w =>
    match task_func t with
    | Some target => target w
    | None => (w, None)
    end.

Definition getName (t : Task) : string := task_name t.
Definition getPriority (t : Task) : Z := priority t.

Record TaskScheduler : Type := {
  tasks : list Task;
  scheduler_name : string
}.

(** [explicit TaskScheduler(std::string name)] *)
Definition TaskScheduler_ctor (name : string) : TaskScheduler :=
  {| tasks := []; scheduler_name := name |}.

(** [add_task(name, priority, func)] *)
Definition add_task (name : string) (prio : Z)
    (func : function_void World) (s : TaskScheduler) : TaskScheduler :=
  {| tasks := tasks s ++ [Task_ctor name prio func];
     scheduler_name := scheduler_name s |}.

(** The comparison handed to [std::sort]. *)
Definition higher_priority (a b : Task) : bool :=
  (getPriority a >? getPriority b)%Z.

Variable std_sort : (Task -> Task -> bool) -> list Task -> list Task.

(** [execute_all()]: sorts the vector in place, then runs it front to
    back. *)
Definition execute_all (s : TaskScheduler) (w : World)
  : TaskScheduler * World * option exception :=
  let s1 := {| tasks := std_sort higher_priority (tasks s);
               scheduler_name := scheduler_name s |} in
  let (w1, thrown) := for_each execute (tasks s1) w in
  (s1, w1, thrown).

Definition getTaskCount (s : TaskScheduler) : nat :=
  List.length (tasks s).
End Scheduler.

Arguments task_func {World}.
Arguments task_name {World}.
Arguments priority {World}.
Arguments Task_ctor {World}.
Arguments execute {World}.
Arguments getName {World}.
Arguments getPriority {World}.
Arguments tasks {World}.
Arguments scheduler_name {World}.
Arguments TaskScheduler_ctor {World}.
Arguments add_task {World}.
Arguments higher_priority {World}.
Arguments execute_all {World}.
Arguments getTaskCount {World}.
End ModernAsyncDesign.

(** ** comprehensive_example.cpp: namespace CacheSystem *)

Module CacheSystem.

(** [LargeObject]: a [std::vector<int>] and a name.  A moved-from
    [std::vector] or [std::string] is taken to be empty, which is what the
    standard libraries in use leave; the properties of the cache below do
    not depend on it. *)
Record LargeObject : Type := {
  data : list Z;
  name : string
}.

(** [LargeObject(std::string n, size_t size)]: [std::iota] fills the
    vector with 0, 1, 2, ... *)
Definition LargeObject_ctor (n : string) (size : nat) : LargeObject :=
  {| data := map Z.of_nat (seq 0 size); name := n |}.

Definition LargeObject_copy_ctor (other : LargeObject) : LargeObject :=
  {| data := data other; name := name other ++ "_copy" |}.

Definition LargeObject_move_ctor (other : LargeObject)
  : LargeObject * LargeObject :=
  ({| data := data other; name := name other |},
   {| data := []; name := "" |}).

Definition LargeObject_copy_assign (this other : LargeObject) : LargeObject :=
  {| data := data other; name := name other ++ "_assigned" |}.

Definition LargeObject_move_assign (this other : LargeObject)
  : LargeObject * LargeObject :=
  ({| data := data other; name := name other |},
   {| data := []; name := "" |}).

#[global] Instance LargeObject_Constructible : Constructible LargeObject :=
  {| copy_construct := LargeObject_copy_ctor;
     move_construct := LargeObject_move_ctor |}.

#[global] Instance LargeObject_Assignable : Assignable LargeObject :=
  {| copy_assign := LargeObject_copy_assign;
     move_assign := LargeObject_move_assign |}.

Definition getName (o : LargeObject) : string := name o.
Definition getDataSize (o : LargeObject) : nat := List.length (data o).

Section Cache.
Context {Value : Type} `{Constructible Value} `{Assignable Value}.

(** [static Value empty_value = Value("", 0);] *)
Variable empty_value : Value.

(** [struct CacheNode { Key key; Value value; }] with [std::string] keys. *)
Definition CacheNode : Type := (string * Value)%type.

Record LRUCache : Type := {
  cache : list CacheNode;             (* std::vector<CacheNode>, oldest first *)
  maxSize : nat
}.

(** [explicit LRUCache(size_t size)] *)
Definition LRUCache_ctor (size : nat) : LRUCache :=
  {| cache := []; maxSize := size |}.

(** [std::find_if(cache.begin(), cache.end(), node.key == key)]: the
    nodes in front of the first node with the key, that node, and the
    nodes behind it; [None] for [cache.end()]. *)
Fixpoint find_if (key : string) (nodes : list CacheNode)
  : option (list CacheNode * CacheNode * list CacheNode) :=
  match nodes with
  | [] => None
  | node :: rest =>
      if String.eqb (fst node) key then Some ([], node, rest)
      else
        match find_if key rest with
        | Some (before, hit, after) => Some (node :: before, hit, after)
        | None => None
        end
  end.

(** [it->value = std::forward<V>(value)]: copy assignment from an lvalue
    and from an rvalue of a [const] object, move assignment from any other
    rvalue.  Returns the value assigned to and the
    variables of the caller afterwards. *)
Definition forward_assign (old : Value) (a : argument Value) (f : frame Value)
  : Value * frame Value :=
  match a with
  | lvalue x => (copy_assign old (f x), f)
  | xvalue x =>
      let (assigned, left) := move_assign old (f x) in
      (assigned, update x left f)
  | const_xvalue x => (copy_assign old (f x), f)
  | prvalue v => (fst (move_assign old v), f)
  end.

(** [put(key, value)], called with the variables [f] of the caller in
    scope.  A node that is found gets the value and goes to the back
    ([std::rotate(it, it + 1, cache.end())]).  Otherwise, when the vector
    holds [maxSize] nodes or more, the front node is erased, and the new
    node goes to the back: [CacheNode(Key k, Value v)] takes the value as a
    parameter and moves it into the member.  [None] is for
    [cache.front()] and [cache.erase(cache.begin())] on an empty vector,
    which C++ leaves undefined. *)
Definition put (key : string) (value : argument Value) (f : frame Value)
    (c : LRUCache) : option (LRUCache * frame Value) :=
  match find_if key (cache c) with
  | Some (before, (k, old), after) =>
      let (assigned, f') := forward_assign old value f in
      Some ({| cache := before ++ after ++ [(k, assigned)];
               maxSize := maxSize c |}, f')
  | None =>
      let kept :=
        if (maxSize c <=? List.length (cache c))%nat then
          match cache c with
          | [] => None
          | _ :: rest => Some rest
          end
        else Some (cache c) in
      match kept with
      | Some nodes =>
          let (v, f') := forward_into_tuple value f in
          Some ({| cache := nodes ++ [(key, fst (move_construct v))];
                   maxSize := maxSize c |}, f')
      | None => None
      end
  end.

(** [get(key)]: on a hit the value is moved out of the node into
    [result], the node goes to the back, and [result] is moved into the
    pair that is returned; on a miss the pair holds a copy of
    [empty_value]. *)
Definition get (key : string) (c : LRUCache) : LRUCache * (bool * Value) :=
  match find_if key (cache c) with
  | Some (before, (k, v), after) =>
      let (result, left) := move_construct v in
      ({| cache := before ++ after ++ [(k, left)]; maxSize := maxSize c |},
       (true, fst (move_construct result)))
  | None => (c, (false, copy_construct empty_value))
  end.

Definition size (c : LRUCache) : nat := List.length (cache c).

(** The keys [print_cache] lists, oldest first. *)
Definition keys (c : LRUCache) : list string := map fst (cache c).

(** The value in the node [find_if] finds for a key. *)
Definition node_value (key : string) (nodes : list CacheNode)
  : option Value :=
  match find_if key nodes with
  | Some (_, (_, v), _) => Some v
  | None => None
  end.

Definition held (key : string) (c : LRUCache) : option Value :=
  node_value key (cache c).

(** What holds of every cache built by the constructor with a positive
    capacity and used through [put] and [get]. *)
Definition well_formed (c : LRUCache) : Prop :=
  NoDup (keys c) /\ List.length (cache c) <= maxSize c.
End Cache.

Arguments LRUCache Value : clear implicits.
Arguments CacheNode Value : clear implicits.
End CacheSystem.

(** ** cpp20_advanced.cpp: namespace AdvancedTemplates *)

Module AdvancedTemplates.

(** [std::to_string(int)] *)
Definition to_string (v : Z) : string :=
  NilZero.string_of_int (Z.to_int v).

Record SerializableObject : Type := {
  name : string;
  value : Z
}.

(** [SerializableObject(std::string n, int v)] *)
Definition SerializableObject_ctor (n : string) (v : Z) : SerializableObject :=
  {| name := n; value := v |}.

(** [std::string toString() const] *)
Definition toString (o : SerializableObject) : string :=
  "{name:'" ++ name o ++ "', value:" ++ to_string (value o) ++ "}".

Section Serializer.
(** [typeid(T).name()] *)
Variable type_name : string.

(** [serialize()] of [UniversalSerializer<SerializableObject>]: the
    overload chosen for a type with [toString]. *)
Definition serialize (data : SerializableObject) : string :=
  type_name ++ ":" ++ toString data.
End Serializer.

End AdvancedTemplates.

(** ** Vocabulary for statements on forwarding *)

(** The variables a pack of arguments names. *)
Definition names_of {T : Type} (args : list (argument T)) : list string :=
  flat_map (fun a => match a with
                     | lvalue x => [x]
                     | xvalue x => [x]
                     | const_xvalue x => [x]
                     | prvalue _ => []
                     end) args.

(** What a resource manager argument stands for when the call is made: a
    copy of the variable, what the variable holds when it is passed under
    [std::move] and is not [const], or the temporary. *)
Definition handed_over (f : frame MoveSemantics.ResourceManager)
    (a : argument MoveSemantics.ResourceManager)
  : MoveSemantics.ResourceManager :=
  match a with
  | lvalue x => MoveSemantics.copy_ctor (f x)
  | xvalue x => f x
  | const_xvalue x => MoveSemantics.copy_ctor (f x)
  | prvalue v => v
  end.

(** The elements the closure of [schedule_task(func, args...)] holds. *)
Definition captured {T : Type} `{Constructible T}
    (args : list (argument T)) (f : frame T) : list T :=
  map (fun v => fst (move_construct v)) (fst (make_tuple args f)).

(** What a call of [func] on the elements does to the world. *)
Definition deferred_call {World T Func : Type}
    `{TaskScheduler.Callable World T Func}
    (func : Func) (elements : list T) : body World :=
  fun w => snd (TaskScheduler.call func elements w).

(** No character of the string is the single quote. *)
Fixpoint quote_free (s : string) : bool :=
  match s with
  | EmptyString => true
  | String ch rest => negb (Ascii.eqb ch "'") && quote_free rest
  end.

(** ** Worlds and task bodies to run the code on *)

(** The lines task bodies write, oldest first. *)
Definition Console : Type := list string.

(** A body that writes one line. *)
Definition writes (line : string) : body Console :=
  fun out => (out ++ [line], None).

(** A body that writes one line and then throws. *)
Definition writes_and_throws (line what : string) : body Console :=
  fun out => (out ++ [line], Some (runtime_error what)).

(** A callable that takes resource managers and writes their names. *)
Definition writes_names (rs : list MoveSemantics.ResourceManager)
  : body Console :=
  fun out => (out ++ map MoveSemantics.getName rs, None).

(** The variables of a caller that holds two resource managers. *)
Definition two_resources : frame MoveSemantics.ResourceManager :=
  update "a" (MoveSemantics.ctor 3 "first")
    (update "b" (MoveSemantics.ctor 2 "second")
       (fun _ => MoveSemantics.default_ctor)).

(** A callable without parameters that writes one line. *)
Definition says (line : string) (_ : list MoveSemantics.ResourceManager)
  : body Console :=
  writes line.

(** A callable without parameters that writes one line and throws. *)
Definition says_and_throws (line what : string)
    (_ : list MoveSemantics.ResourceManager) : body Console :=
  writes_and_throws line what.

(** [schedule_task(func)] with no further arguments. *)
Definition schedule_plain
    (func : list MoveSemantics.ResourceManager -> body Console)
    (s : TaskScheduler.Scheduler Console) : TaskScheduler.Scheduler Console :=
  fst (TaskScheduler.schedule_task func [] two_resources s).

(** A, B and C submitted in this order; B throws. *)
Definition batch_B_fails : TaskScheduler.Scheduler Console :=
  schedule_plain (says "C")
    (schedule_plain (says_and_throws "B" "B failed")
       (schedule_plain (says "A") TaskScheduler.Scheduler_ctor)).

(** Two anonymous tasks and two named ones, the named ones given in
    descending key order. *)
Definition mixed_batch : TaskScheduler.Scheduler Console :=
  TaskScheduler.schedule_named_task "alpha" (Some (writes "named alpha"))
    (schedule_plain (says "second")
       (TaskScheduler.schedule_named_task "beta" (Some (writes "named beta"))
          (schedule_plain (says "first") TaskScheduler.Scheduler_ctor))).

(** The priorities of the specification's example: A 1, B 5, C 3. *)
Definition priorities_1_5_3 : ModernAsyncDesign.TaskScheduler Console :=
  ModernAsyncDesign.add_task "C" 3 (Some (writes "C"))
    (ModernAsyncDesign.add_task "B" 5 (Some (writes "B"))
       (ModernAsyncDesign.add_task "A" 1 (Some (writes "A"))
          (ModernAsyncDesign.TaskScheduler_ctor "main"))).

(** Two tasks of one priority, A submitted before B. *)
Definition equal_priorities : ModernAsyncDesign.TaskScheduler Console :=
  ModernAsyncDesign.add_task "B" 1 (Some (writes "B"))
    (ModernAsyncDesign.add_task "A" 1 (Some (writes "A"))
       (ModernAsyncDesign.TaskScheduler_ctor "main")).

(** Seventeen tasks of one priority, submitted in the order A, B, ...,
    Q; each writes its name. *)
Definition seventeen_names : list string :=
  ["A"; "B"; "C"; "D"; "E"; "F"; "G"; "H"; "I"; "J"; "K"; "L"; "M"; "N";
   "O"; "P"; "Q"].

Definition submit_all (names : list string)
  : ModernAsyncDesign.TaskScheduler Console :=
  fold_left
    (fun s name => ModernAsyncDesign.add_task name 1 (Some (writes name)) s)
    names (ModernAsyncDesign.TaskScheduler_ctor "main").

Definition seventeen_equal : ModernAsyncDesign.TaskScheduler Console :=
  submit_all seventeen_names.

(** [schedule_task(by_value, std::move(b))], where [by_value] takes a
    resource manager as an object and writes its name, and then a task
    B that throws. *)
Definition by_value_then_B : TaskScheduler.Scheduler Console :=
  schedule_plain (says_and_throws "B" "B failed")
    (fst (TaskScheduler.schedule_task (TaskScheduler.taking writes_names)
            [xvalue "b"] two_resources TaskScheduler.Scheduler_ctor)).

(** A caller that holds an [int] of value 42 in every variable, and a
    callable that takes [int]s and writes nothing. *)
Definition forty_two : frame Z := fun _ => 42%Z.

Definition ignores (_ : list Z) : body Console := fun out => (out, None).

(** [static Value empty_value = Value("", 0);] for [LargeObject]. *)
Definition empty_object : CacheSystem.LargeObject :=
  CacheSystem.LargeObject_ctor "" 0.

(** A caller of the cache that holds one object in a variable. *)
Definition one_object : frame CacheSystem.LargeObject :=
  update "big" (CacheSystem.LargeObject_ctor "big one" 4)
    (fun _ => empty_object).

(** A full cache of capacity 3, oldest key first. *)
Definition three_objects : CacheSystem.LRUCache CacheSystem.LargeObject :=
  {| CacheSystem.cache :=
       [("obj1", CacheSystem.LargeObject_ctor "one" 1);
        ("obj2", CacheSystem.LargeObject_ctor "two" 2);
        ("obj3", CacheSystem.LargeObject_ctor "three" 3)];
     CacheSystem.maxSize := 3 |}.

(* ================================================================== *)
(** * Properties *)
(* ================================================================== *)

(** ** The range-for loop *)

Lemma for_each_app {World A : Type} (call : A -> body World) xs ys w :
  for_each call (xs ++ ys) w =
  match for_each call xs w with
  | (w', None) => for_each call ys w'
  | (w', Some e) => (w', Some e)
  end.
Proof.
  revert w; induction xs as [|x xs IH]; intros w; simpl.
  - reflexivity.
  - destruct (call x w) as [w' [e|]]; [reflexivity | apply IH].
Qed.

Lemma for_each_map {World A B : Type} (g : A -> B) (call : B -> body World)
    xs w :
  for_each (fun x => call (g x)) xs w = for_each call (map g xs) w.
Proof.
  revert w; induction xs as [|x xs IH]; intros w; simpl.
  - reflexivity.
  - destruct (call (g x) w) as [w' [e|]]; [reflexivity | apply IH].
Qed.

Lemma for_each_ext {World A : Type} (call call' : A -> body World) xs w :
  (forall x v, call x v = call' x v) ->
  for_each call xs w = for_each call' xs w.
Proof.
  intros Hcall. revert w; induction xs as [|x xs IH]; intros w; simpl.
  - reflexivity.
  - rewrite Hcall. destruct (call' x w) as [w' [e|]]; [reflexivity | apply IH].
Qed.

Lemma completion_of_pair {O World : Type} (o : O) (c : completion World) :
  completion_of (let (w, thrown) := c in (o, w, thrown)) = c.
Proof. now destruct c. Qed.

(** The loop is the calls one after the other. *)
Lemma for_each_in_order {World A : Type} (call : A -> body World) xs w :
  for_each call xs w = in_order (map call xs) w.
Proof.
  revert w; induction xs as [|x xs IH]; intros w; simpl.
  - reflexivity.
  - unfold and_then. destruct (call x w) as [w' [e|]]; [reflexivity | apply IH].
Qed.

Lemma in_order_app {World : Type} (xs ys : list (body World)) w :
  in_order (xs ++ ys) w = and_then (in_order xs) (in_order ys) w.
Proof.
  revert w; induction xs as [|x xs IH]; intros w.
  - reflexivity.
  - change (and_then x (in_order (xs ++ ys)) w =
            and_then (and_then x (in_order xs)) (in_order ys) w).
    unfold and_then at 1 2 3.
    destruct (x w) as [w' [e|]]; [reflexivity | apply IH].
Qed.

(** How the loop over changing elements ends is how the loop over their
    calls ends. *)
Lemma for_each_ref_ends {World A : Type}
    (call : A -> World -> A * completion World) xs w :
  snd (for_each_ref call xs w) = for_each (fun x v => snd (call x v)) xs w.
Proof.
  revert w; induction xs as [|x xs IH]; intros w; simpl.
  - reflexivity.
  - destruct (call x w) as [x' [w' [e|]]]; simpl; [reflexivity |].
    rewrite <- IH. now destruct (for_each_ref call xs w').
Qed.



(** ** Forwarding into the tuple *)

Section ForwardingFacts.
Context {T : Type} `{Constructible T}.

Lemma update_same (x : string) (v : T) (f : frame T) : update x v f x = v.
Proof. unfold update. now rewrite String.eqb_refl. Qed.

Lemma update_other (x y : string) (v : T) (f : frame T) :
  y <> x -> update x v f y = f y.
Proof.
  intros Hne. unfold update.
  destruct (String.eqb_spec y x) as [->|_]; [contradiction | reflexivity].
Qed.

(** The two results of [make_tuple] on a pack with one argument more. *)
Lemma make_tuple_cons (a : argument T) (args : list (argument T))
    (f : frame T) :
  make_tuple (a :: args) f =
  (fst (forward_into_tuple a (snd (make_tuple args f)))
     :: fst (make_tuple args f),
   snd (forward_into_tuple a (snd (make_tuple args f)))).
Proof.
  simpl. destruct (make_tuple args f) as [elements f1]; simpl.
  now destruct (forward_into_tuple a f1).
Qed.

Lemma make_tuple_length (args : list (argument T)) (f : frame T) :
  List.length (fst (make_tuple args f)) = List.length args.
Proof.
  induction args as [|a args IH].
  - reflexivity.
  - rewrite make_tuple_cons. simpl. now rewrite IH.
Qed.

(** Forwarding an argument changes at most the variable it moves. *)
Lemma forward_into_tuple_keeps (a : argument T) (f : frame T) x :
  a <> xvalue x -> snd (forward_into_tuple a f) x = f x.
Proof.
  intros Hne. destruct a as [y|y|y|v]; simpl; try reflexivity.
  destruct (move_construct (f y)) as [element remains]. simpl.
  apply update_other. intros ->. now apply Hne.
Qed.

(** A variable that no argument moves keeps its value. *)
Lemma make_tuple_keeps (args : list (argument T)) (f : frame T) x :
  ~ In (xvalue x) args -> snd (make_tuple args f) x = f x.
Proof.
  induction args as [|a args IH]; intros Hnot.
  - reflexivity.
  - rewrite make_tuple_cons. simpl.
    rewrite forward_into_tuple_keeps.
    + apply IH. intros Hin. apply Hnot. now right.
    + intros ->. apply Hnot. now left.
Qed.

(** When to move is to copy, no variable changes. *)
Lemma make_tuple_keeps_all (args : list (argument T)) (f : frame T) x :
  (forall v : T, snd (move_construct v) = v) ->
  snd (make_tuple args f) x = f x.
Proof.
  intros Hcopy. induction args as [|a args IH].
  - reflexivity.
  - rewrite make_tuple_cons. simpl. rewrite <- IH.
    destruct a as [y|y|y|v]; simpl; try reflexivity.
    specialize (Hcopy (snd (make_tuple args f) y)).
    destruct (move_construct (snd (make_tuple args f) y))
      as [element remains]; simpl in *. subst remains.
    unfold update. now destruct (String.eqb_spec x y) as [-> | _].
Qed.

(** Unpacking by the index sequence gives the elements in order. *)
Lemma get_index_sequence (before tuple : list T) :
  flat_map (fun i => get i (before ++ tuple))
           (seq (List.length before) (List.length tuple)) = tuple.
Proof.
  revert before; induction tuple as [|v tuple IH]; intros before; simpl.
  - reflexivity.
  - unfold get at 1.
    rewrite nth_error_app2 by lia.
    rewrite Nat.sub_diag; simpl.
    f_equal.
    specialize (IH (before ++ [v])).
    rewrite <- app_assoc in IH; simpl in IH.
    rewrite length_app in IH; simpl in IH.
    now rewrite Nat.add_1_r in IH.
Qed.

Lemma call_with_tuple_all {World Func : Type}
    {callable : TaskScheduler.Callable World T Func}
    (func : Func) (tuple : list T) :
  TaskScheduler.call_with_tuple func tuple
    (make_index_sequence (List.length tuple)) = TaskScheduler.call func tuple.
Proof.
  unfold TaskScheduler.call_with_tuple, make_index_sequence.
  f_equal. exact (get_index_sequence [] tuple).
Qed.
End ForwardingFacts.

(** ** ResourceManager *)

Lemma move_ctor_leaves_moved_from (r : MoveSemantics.ResourceManager) :
  MoveSemantics.moved_from (snd (MoveSemantics.move_ctor r)).
Proof. repeat split. Qed.

Lemma move_ctor_takes_all (r : MoveSemantics.ResourceManager) :
  fst (MoveSemantics.move_ctor r) = r.
Proof. now destruct r. Qed.

Lemma copy_ctor_of_ctor (s : nat) (n : string) :
  MoveSemantics.copy_ctor (MoveSemantics.ctor s n) =
  {| MoveSemantics.data :=
       if (0 <? s)%nat then Some (map MoveSemantics.to_int (seq 0 s)) else None;
     MoveSemantics.size := s;
     MoveSemantics.name := n ++ "_copy" |}.
Proof.
  unfold MoveSemantics.copy_ctor, MoveSemantics.ctor; simpl.
  destruct (0 <? s)%nat; [|reflexivity].
  unfold MoveSemantics.std_copy.
  rewrite firstn_all2 by (rewrite length_map, length_seq; lia).
  rewrite skipn_all2 by (rewrite repeat_length; lia).
  now rewrite app_nil_r.
Qed.

(** When the move constructor leaves its source in a state [empty], a
    variable in this state stays in it while the other elements are
    built, and a variable that is moved gets into it. *)
Section Emptied.
Context {T : Type} `{Constructible T} (empty : T -> Prop).
Hypothesis move_empties : forall v : T, empty (snd (move_construct v)).

Lemma forward_into_tuple_stays_empty (a : argument T) (f : frame T) x :
  empty (f x) -> empty (snd (forward_into_tuple a f) x).
Proof.
  intros Hx. destruct a as [y|y|y|v]; simpl; try exact Hx.
  specialize (move_empties (f y)).
  destruct (move_construct (f y)) as [element remains]; simpl in *.
  unfold update. destruct (String.eqb x y); [exact move_empties | exact Hx].
Qed.

Lemma make_tuple_empties (args : list (argument T)) (f : frame T) x :
  In (xvalue x) args -> empty (snd (make_tuple args f) x).
Proof.
  induction args as [|a args IH]; intros Hin.
  - contradiction.
  - rewrite make_tuple_cons. simpl.
    destruct Hin as [-> | Hin].
    + simpl. specialize (move_empties (snd (make_tuple args f) x)).
      destruct (move_construct (snd (make_tuple args f) x))
        as [element remains]; simpl in *.
      now rewrite update_same.
    + now apply forward_into_tuple_stays_empty, IH.
Qed.
End Emptied.

Lemma make_tuple_moves
    (args : list (argument MoveSemantics.ResourceManager)) f x :
  In (xvalue x) args ->
  MoveSemantics.moved_from (snd (make_tuple args f) x).
Proof.
  apply make_tuple_empties. exact move_ctor_leaves_moved_from.
Qed.

Lemma moved_or_not {T : Type} (args : list (argument T)) (x : string) :
  In (xvalue x) args \/ ~ In (xvalue x) args.
Proof.
  induction args as [|a args [IH | IH]].
  - right. intros [].
  - left. now right.
  - destruct a as [y|y|y|v];
      try (right; intros [Hin | Hin]; [discriminate Hin | contradiction]).
    destruct (String.eqb_spec y x) as [-> | Hne].
    + left. now left.
    + right. intros [Hin | Hin]; [|contradiction].
      inversion Hin. contradiction.
Qed.

Lemma moved_from_unique (r : MoveSemantics.ResourceManager) :
  MoveSemantics.moved_from r ->
  r = {| MoveSemantics.data := None;
         MoveSemantics.size := 0;
         MoveSemantics.name := "moved_from" |}.
Proof.
  destruct r as [d n s]. unfold MoveSemantics.moved_from; simpl.
  now intros (-> & -> & ->).
Qed.

(** The variables of the caller after the call do not depend on the order
    in which the elements of the tuple are built. *)
Lemma make_tuple_order_irrelevant
    (args args' : list (argument MoveSemantics.ResourceManager)) f x :
  Permutation args args' ->
  snd (make_tuple args f) x = snd (make_tuple args' f) x.
Proof.
  intros Hperm.
  destruct (moved_or_not args x) as [Hin | Hnot].
  - rewrite (moved_from_unique _ (make_tuple_moves args f x Hin)).
    symmetry. apply moved_from_unique, make_tuple_moves.
    now apply Permutation_in with args.
  - rewrite !make_tuple_keeps; [reflexivity | | exact Hnot].
    intros Hin. apply Hnot.
    apply Permutation_in with args'; [now symmetry | exact Hin].
Qed.

Lemma schedule_task_frame {World T Func : Type} `{Constructible T}
    {callable : TaskScheduler.Callable World T Func}
    (func : Func) args f (s : TaskScheduler.Scheduler World) :
  snd (TaskScheduler.schedule_task func args f s) = snd (make_tuple args f).
Proof.
  unfold TaskScheduler.schedule_task.
  now destruct (make_tuple args f).
Qed.

(** C1 (as amended).  [schedule_task] and the variables of its caller,
    for arguments of every type and callables of every kind.  When the
    move constructor of the type leaves its source in a state [empty]
    (that of [ResourceManager] does: null pointer, size 0, name
    "moved_from"), a variable that is passed under [std::move], and is not
    [const], is in this state when [schedule_task] returns.  A variable
    that no argument of the call passes in this way has the value it had
    before the call: so one that is passed by name, and so one that is
    [const] and passed under [std::move], which is copied.  When to move
    is to copy, as for [int], every variable has the value it had, however
    it is passed. *)
Theorem C1_ownership_mode_fidelity :
  forall (World T Func : Type) (CT : Constructible T)
         (callable : TaskScheduler.Callable World T Func)
         (func : Func) (args : list (argument T)) (f : frame T)
         (s : TaskScheduler.Scheduler World) (x : string)
         (empty : T -> Prop),
    let f' := snd (TaskScheduler.schedule_task func args f s) in
    ((forall v : T, empty (snd (move_construct v))) ->
     In (xvalue x) args -> empty (f' x)) /\
    (~ In (xvalue x) args -> f' x = f x) /\
    ((forall v : T, snd (move_construct v) = v) -> f' x = f x).
Proof.
  intros World T Func CT callable func args f s x empty f'. subst f'.
  rewrite schedule_task_frame. split; [|split].
  - intros Hempty. now apply make_tuple_empties.
  - apply make_tuple_keeps.
  - apply make_tuple_keeps_all.
Qed.

(** ** std::map *)

Module StdMapFacts.
Import StdMap.

Lemma compare_refl (k : string) : String.compare k k = Eq.
Proof. now apply String_as_OT.cmp_eq. Qed.

Lemma compare_Gt (a b : string) :
  String.compare a b = Gt -> key_lt b a.
Proof.
  unfold key_lt. intros Hgt.
  rewrite String.compare_antisym, Hgt. reflexivity.
Qed.

Lemma key_lt_trans (a b c : string) : key_lt a b -> key_lt b c -> key_lt a c.
Proof.
  unfold key_lt. intros Hab Hbc.
  apply String_as_OT.cmp_lt.
  apply String_as_OT.lt_trans with b; now apply String_as_OT.cmp_lt.
Qed.

Lemma key_lt_neq (a b : string) : key_lt a b -> String.eqb b a = false.
Proof.
  unfold key_lt. intros Hab.
  apply String.eqb_neq. intros ->.
  rewrite compare_refl in Hab. discriminate.
Qed.

Section Facts.
Context {V : Type}.

(** The shape of an assignment: one entry is put in, in place of the
    entry of that key if there was one. *)
Lemma assign_shape (k : string) (v : V) (m : t V) :
  exists before after,
    assign k v m = before ++ (k, v) :: after /\
    (m = before ++ after \/ exists old, m = before ++ (k, old) :: after).
Proof.
  induction m as [|[k' v'] m IH]; simpl.
  - exists [], []. split; [reflexivity | now left].
  - destruct (String.compare k k') eqn:Hcmp.
    + apply String.compare_eq_iff in Hcmp. subst k'.
      exists [], m. split; [reflexivity | right; now exists v'].
    + exists [], ((k', v') :: m). split; [reflexivity | now left].
    + destruct IH as (before & after & Heq & Hm).
      exists ((k', v') :: before), after. split.
      * simpl. now rewrite Heq.
      * destruct Hm as [-> | [old ->]]; [now left | right; now exists old].
Qed.

Lemma find_assign_same (k : string) (v : V) (m : t V) :
  find k (assign k v m) = Some v.
Proof.
  induction m as [|[k' v'] m IH]; simpl.
  - now rewrite String.eqb_refl.
  - destruct (String.compare k k') eqn:Hcmp; simpl.
    + apply String.compare_eq_iff in Hcmp. subst k'.
      now rewrite String.eqb_refl.
    + now rewrite String.eqb_refl.
    + rewrite (key_lt_neq k' k (compare_Gt _ _ Hcmp)). exact IH.
Qed.

Lemma find_assign_other (k k0 : string) (v : V) (m : t V) :
  k0 <> k -> find k0 (assign k v m) = find k0 m.
Proof.
  intros Hne. induction m as [|[k' v'] m IH]; simpl.
  - apply String.eqb_neq in Hne. now rewrite Hne.
  - destruct (String.compare k k') eqn:Hcmp; simpl.
    + apply String.compare_eq_iff in Hcmp. subst k'.
      apply String.eqb_neq in Hne. now rewrite Hne.
    + apply String.eqb_neq in Hne. now rewrite Hne.
    + now rewrite IH.
Qed.

(** A second assignment to a key leaves no trace of the first. *)
Lemma assign_assign (k : string) (v1 v2 : V) (m : t V) :
  assign k v2 (assign k v1 m) = assign k v2 m.
Proof.
  induction m as [|[k' v'] m IH]; simpl.
  - now rewrite compare_refl.
  - destruct (String.compare k k') eqn:Hcmp; simpl.
    + now rewrite Hcmp.
    + now rewrite compare_refl.
    + now rewrite Hcmp, IH.
Qed.

Lemma keys_assign_Forall (P : string -> Prop) (k : string) (v : V)
    (m : t V) :
  P k -> Forall P (keys m) -> Forall P (keys (assign k v m)).
Proof.
  intros Hk. induction m as [|[k' v'] m IH]; simpl; intros Hm.
  - now constructor.
  - inversion Hm as [|? ? Hk' Hm']; subst.
    destruct (String.compare k k'); simpl.
    + now constructor.
    + constructor; [exact Hk | now constructor].
    + constructor; [exact Hk' | now apply IH].
Qed.

(** Assignment keeps the keys strictly ascending. *)
Lemma ordered_assign (k : string) (v : V) (m : t V) :
  ordered m -> ordered (assign k v m).
Proof.
  unfold ordered.
  induction m as [|[k' v'] m IH]; simpl; intros Hm.
  - repeat constructor.
  - inversion Hm as [|? ? Hm' Hk']; subst.
    destruct (String.compare k k') eqn:Hcmp; simpl.
    + now constructor.
    + constructor; [exact Hm |].
      constructor; [exact Hcmp |].
      eapply Forall_impl; [|exact Hk'].
      intros a Ha. now apply key_lt_trans with k'.
    + constructor; [now apply IH |].
      apply keys_assign_Forall; [now apply compare_Gt | exact Hk'].
Qed.

Lemma filter_key_above (k : string) (m : t V) :
  Forall (key_lt k) (keys m) ->
  filter (fun entry => String.eqb (fst entry) k) m = [].
Proof.
  induction m as [|[k' v'] m IH]; simpl; intros Hm.
  - reflexivity.
  - inversion Hm as [|? ? Hk' Hm']; subst.
    rewrite (key_lt_neq _ _ Hk'). now apply IH.
Qed.

(** After an assignment the key has exactly one entry. *)
Lemma entries_of_assigned_key (k : string) (v : V) (m : t V) :
  ordered m ->
  filter (fun entry => String.eqb (fst entry) k) (assign k v m) = [(k, v)].
Proof.
  unfold ordered.
  induction m as [|[k' v'] m IH]; simpl; intros Hm.
  - now rewrite String.eqb_refl.
  - inversion Hm as [|? ? Hm' Hk']; subst.
    destruct (String.compare k k') eqn:Hcmp; simpl.
    + apply String.compare_eq_iff in Hcmp. subst k'.
      rewrite String.eqb_refl. f_equal. now apply filter_key_above.
    + rewrite String.eqb_refl. f_equal.
      rewrite (key_lt_neq _ _ Hcmp).
      apply filter_key_above.
      eapply Forall_impl; [|exact Hk'].
      intros a Ha. now apply key_lt_trans with k'.
    + rewrite String.eqb_sym, (key_lt_neq _ _ (compare_Gt _ _ Hcmp)).
      now apply IH.
Qed.
End Facts.
End StdMapFacts.

(** ** The FIFO scheduler *)

Section SchedulerFacts.
Import TaskScheduler.
Context {World : Type}.

Lemma and_then_next (first next next' : body World) (w : World) :
  (forall v, next v = next' v) ->
  and_then first next w = and_then first next' w.
Proof.
  intros Hnext. unfold and_then.
  destruct (first w) as [w' [e|]]; [reflexivity | apply Hnext].
Qed.

Lemma and_then_assoc (first second third : body World) (w : World) :
  and_then (and_then first second) third w =
  and_then first (and_then second third) w.
Proof.
  unfold and_then. now destruct (first w) as [w' [e|]].
Qed.

Lemma in_order_app_then (xs ys : list (body World)) (next : body World) w :
  and_then (in_order (xs ++ ys)) next w =
  and_then (in_order xs) (and_then (in_order ys) next) w.
Proof.
  rewrite <- and_then_assoc. unfold and_then at 1 3.
  now rewrite in_order_app.
Qed.

Lemma schedule_task_vector {T Func : Type} `{Constructible T}
    {callable : Callable World T Func}
    (func : Func) args f (s : Scheduler World) :
  vector (fst (schedule_task func args f s)) =
  vector s ++
    [Some (closure func (fst (make_tuple args f)) (List.length args))].
Proof.
  unfold schedule_task. now destruct (make_tuple args f).
Qed.

Lemma schedule_task_namedTasks {T Func : Type} `{Constructible T}
    {callable : Callable World T Func}
    (func : Func) args f (s : Scheduler World) :
  namedTasks (fst (schedule_task func args f s)) = namedTasks s.
Proof.
  unfold schedule_task. now destruct (make_tuple args f).
Qed.

(** The first call of the closure calls [func] on the elements the
    closure holds. *)
Lemma as_Task_closure {T Func : Type} `{Constructible T}
    {callable : Callable World T Func} (func : Func) args f :
  as_Task (Some (closure func (fst (make_tuple args f)) (List.length args))) =
  Some (deferred_call func (captured args f)).
Proof.
  unfold as_Task, Lambda_call, closure, deferred_call, captured; simpl.
  set (elements := map (fun v => fst (move_construct v))
                     (fst (make_tuple args f))).
  assert (Hlen : List.length args = List.length elements).
  { subst elements. now rewrite length_map, make_tuple_length. }
  rewrite Hlen, call_with_tuple_all. reflexivity.
Qed.

Lemma schedule_task_tasks {T Func : Type} `{Constructible T}
    {callable : Callable World T Func}
    (func : Func) args f (s : Scheduler World) :
  tasks (fst (schedule_task func args f s)) =
  tasks s ++ [Some (deferred_call func (captured args f))].
Proof.
  unfold tasks. rewrite schedule_task_vector, map_app. cbn [map].
  now rewrite as_Task_closure.
Qed.

(** The loop over the vector ends as the loop over its tasks does. *)
Lemma vector_loop_ends (ts : list (option (Lambda World))) (w : World) :
  snd (for_each_ref call_function ts w) = for_each invoke (map as_Task ts) w.
Proof.
  rewrite for_each_ref_ends, <- for_each_map.
  apply for_each_ext. now intros [c|] v.
Qed.

Lemma execute_all_namedTasks (s : Scheduler World) (w : World) :
  namedTasks (object_after (execute_all s w)) = namedTasks s.
Proof.
  unfold execute_all, object_after.
  destruct (for_each_ref call_function (vector s) w) as [called [w1 [e|]]];
    simpl.
  - reflexivity.
  - now destruct (for_each (fun pair => invoke (snd pair)) (namedTasks s) w1).
Qed.

(** What [execute_all] does to the world: the loop over the vector, then
    the loop over the map. *)
Lemma execute_all_completion (s : Scheduler World) (w : World) :
  completion_of (execute_all s w) =
  for_each invoke (tasks s ++ map snd (namedTasks s)) w.
Proof.
  unfold execute_all, completion_of, tasks.
  rewrite for_each_app, <- vector_loop_ends.
  destruct (for_each_ref call_function (vector s) w) as [called [w1 [e|]]];
    simpl.
  - reflexivity.
  - rewrite (for_each_map snd invoke).
    apply completion_of_pair.
Qed.

(** The same as a sequence of calls: those of the vector, then those of
    the map. *)
Lemma execute_all_in_order (s : Scheduler World) (w : World) :
  completion_of (execute_all s w) =
  and_then (in_order (map invoke (tasks s)))
    (in_order (map (fun entry => invoke (snd entry)) (namedTasks s))) w.
Proof.
  rewrite execute_all_completion, for_each_in_order, map_app, in_order_app.
  now rewrite map_map.
Qed.

(** When [execute_all] returns the vector is empty. *)
Lemma execute_all_returns (s : Scheduler World) (w : World) :
  snd (execute_all s w) = None ->
  vector (object_after (execute_all s w)) = [].
Proof.
  unfold execute_all, object_after.
  destruct (for_each_ref call_function (vector s) w) as [called [w1 [e|]]];
    simpl.
  - discriminate.
  - intros _.
    now destruct (for_each (fun pair => invoke (snd pair)) (namedTasks s) w1).
Qed.

(** The map of every scheduler a program can hold has its keys in
    strictly ascending order. *)
Lemma reachable_ordered (s : Scheduler World) :
  reachable s -> StdMap.ordered (namedTasks s).
Proof.
  induction 1 as [|T C Func F func args f s _ IH|name task s _ IH|s w _ IH].
  - constructor.
  - now rewrite schedule_task_namedTasks.
  - now apply StdMapFacts.ordered_assign.
  - now rewrite execute_all_namedTasks.
Qed.

(** When no call of a list throws, the calls one after the other end
    without an exception, in the world the last of them leaves. *)
Lemma in_order_returns (calls : list (body World)) (w : World) :
  Forall (fun one => forall v, snd (one v) = None) calls ->
  in_order calls w = (fold_left (fun v one => fst (one v)) calls w, None).
Proof.
  revert w; induction calls as [|one calls IH]; intros w Hcalls.
  - reflexivity.
  - inversion Hcalls as [|? ? Hone Hrest]; subst.
    change (and_then one (in_order calls) w =
            (fold_left (fun v one' => fst (one' v)) calls (fst (one w)), None)).
    unfold and_then. specialize (Hone w).
    destruct (one w) as [w' [e|]]; simpl in *; [discriminate |].
    now apply IH.
Qed.
End SchedulerFacts.

(** C2.  FIFO order.  Three calls of [schedule_task], for A, for B and for
    C, with callables of any kind, put three tasks behind the tasks the
    vector holds, in this order; the task for A is the call of [fA] on the
    elements captured from [argsA], and so for B and C.  [execute_all]
    calls the tasks that were in the vector, then A, then B, then C, and
    after them the named tasks; a call is made when the one in front of it
    has returned, so that an exception ends the sequence. *)
Theorem C2_fifo_order :
  forall (World T : Type) (CT : Constructible T) (FA FB FC : Type)
         (CA : TaskScheduler.Callable World T FA)
         (CB : TaskScheduler.Callable World T FB)
         (CC : TaskScheduler.Callable World T FC)
         (fA : FA) (fB : FB) (fC : FC)
         (argsA argsB argsC : list (argument T))
         (f : frame T) (s : TaskScheduler.Scheduler World) (w : World),
    let sA := TaskScheduler.schedule_task fA argsA f s in
    let sB := TaskScheduler.schedule_task fB argsB (snd sA) (fst sA) in
    let sC := TaskScheduler.schedule_task fC argsC (snd sB) (fst sB) in
    let A := deferred_call fA (captured argsA f) in
    let B := deferred_call fB (captured argsB (snd sA)) in
    let C := deferred_call fC (captured argsC (snd sB)) in
    TaskScheduler.tasks (fst sC) =
      TaskScheduler.tasks s ++ [Some A; Some B; Some C] /\
    completion_of (TaskScheduler.execute_all (fst sC) w) =
      and_then (in_order (map invoke (TaskScheduler.tasks s)))
        (and_then A
           (and_then B
              (and_then C
                 (in_order (map (fun entry => invoke (snd entry))
                              (TaskScheduler.namedTasks s)))))) w.
Proof.
  intros World T CT FA FB FC CA CB CC fA fB fC argsA argsB argsC f s w
    sA sB sC A B C.
  assert (Htasks : TaskScheduler.tasks (fst sC) =
                   TaskScheduler.tasks s ++ [Some A; Some B; Some C]).
  { subst sC sB sA A B C.
    rewrite !schedule_task_tasks, <- !app_assoc. reflexivity. }
  split; [exact Htasks |].
  rewrite execute_all_in_order, Htasks, map_app, in_order_app_then.
  subst sC sB sA. rewrite !schedule_task_namedTasks.
  apply and_then_next. intros v. simpl.
  change (invoke (Some A)) with A.
  change (invoke (Some B)) with B.
  change (invoke (Some C)) with C.
  change (in_order [A; B; C])
    with (and_then A (and_then B (and_then C nothing))).
  do 3 (rewrite and_then_assoc; apply and_then_next; intros ?).
  reflexivity.
Qed.

(** C5.  Anonymous before named, named by ascending key.  For every
    scheduler a program can hold, [execute_all] calls the tasks of the
    vector one after the other and, when the last of them has returned,
    the tasks of the map one after the other in the order of the entries;
    the keys of the entries are strictly ascending. *)
Theorem C5_anonymous_then_named_by_key :
  forall (World : Type) (s : TaskScheduler.Scheduler World) (w : World),
    TaskScheduler.reachable s ->
    completion_of (TaskScheduler.execute_all s w) =
    and_then (in_order (map invoke (TaskScheduler.tasks s)))
      (in_order (map (fun entry => invoke (snd entry))
                   (TaskScheduler.namedTasks s))) w /\
    StronglySorted (fun a b => String.compare a b = Lt)
      (map fst (TaskScheduler.namedTasks s)).
Proof.
  intros World s w Hs. split.
  - apply execute_all_in_order.
  - exact (reachable_ordered s Hs).
Qed.

(** C6.  Named overwrite.  After [schedule_named_task(n, T1)] and then
    [schedule_named_task(n, T2)] the map holds T2 under [n], the entries
    with key [n] are exactly the one entry [(n, T2)], and the scheduler is
    the one reached without the first call.  The entries of the map are
    those the scheduler had under other keys, in front of and behind the
    entry [(n, T2)].  [execute_all] calls the tasks of the vector, then
    the named tasks in front, then T2, then the named tasks behind: T2 is
    called, and T1 is not among the calls. *)
Theorem C6_named_overwrite :
  forall (World : Type) (s : TaskScheduler.Scheduler World)
         (n : string) (T1 T2 : TaskScheduler.Task World),
    TaskScheduler.reachable s ->
    let s2 := TaskScheduler.schedule_named_task n T2
                (TaskScheduler.schedule_named_task n T1 s) in
    StdMap.find n (TaskScheduler.namedTasks s2) = Some T2 /\
    filter (fun entry => String.eqb (fst entry) n)
      (TaskScheduler.namedTasks s2) = [(n, T2)] /\
    s2 = TaskScheduler.schedule_named_task n T2 s /\
    exists before after,
      TaskScheduler.namedTasks s2 = before ++ (n, T2) :: after /\
      (TaskScheduler.namedTasks s = before ++ after \/
       exists old,
         TaskScheduler.namedTasks s = before ++ (n, old) :: after) /\
      forall w,
        completion_of (TaskScheduler.execute_all s2 w) =
        and_then (in_order (map invoke (TaskScheduler.tasks s)))
          (and_then (in_order (map (fun entry => invoke (snd entry)) before))
             (and_then (invoke T2)
                (in_order (map (fun entry => invoke (snd entry)) after)))) w.
Proof.
  intros World s n T1 T2 Hs s2.
  assert (Heq : s2 = TaskScheduler.schedule_named_task n T2 s).
  { subst s2. unfold TaskScheduler.schedule_named_task; simpl.
    now rewrite StdMapFacts.assign_assign. }
  split; [|split; [|split; [exact Heq |]]].
  - subst s2. simpl. apply StdMapFacts.find_assign_same.
  - subst s2. simpl. apply StdMapFacts.entries_of_assigned_key.
    apply StdMapFacts.ordered_assign. now apply reachable_ordered.
  - destruct (StdMapFacts.assign_shape n T2 (TaskScheduler.namedTasks s))
      as (before & after & Hshape & Hwas).
    exists before, after.
    assert (Hnamed : TaskScheduler.namedTasks s2 = before ++ (n, T2) :: after).
    { rewrite Heq. exact Hshape. }
    split; [exact Hnamed |]. split; [exact Hwas |].
    intros w. rewrite execute_all_in_order, Hnamed.
    assert (Htasks : TaskScheduler.tasks s2 = TaskScheduler.tasks s)
      by (rewrite Heq; reflexivity).
    rewrite Htasks. apply and_then_next. intros v.
    rewrite map_app, in_order_app. reflexivity.
Qed.

(** C7.  [execute_all] leaves the map of named tasks as it is: the same
    entries under the same keys, whether it returns or is left by an
    exception. *)
Theorem C7_execute_all_keeps_named :
  forall (World : Type) (s : TaskScheduler.Scheduler World) (w : World),
    TaskScheduler.namedTasks (object_after (TaskScheduler.execute_all s w)) =
    TaskScheduler.namedTasks s.
Proof.
  intros World s w. apply execute_all_namedTasks.
Qed.

(** C10.  Each submission changes its own collection only.
    [schedule_task] puts exactly one task at the back of the vector and
    leaves the map; [schedule_named_task] leaves the vector and puts one
    entry [(name, task)] into the map, at a place where there was none or
    in place of the entry of the same key, all other entries staying. *)
Theorem C10_submission_frame :
  forall (World T : Type) (CT : Constructible T)
         (func : list T -> body World) (args : list (argument T))
         (f : frame T) (name : string) (task : TaskScheduler.Task World)
         (s : TaskScheduler.Scheduler World),
    (let s' := fst (TaskScheduler.schedule_task func args f s) in
     (exists t, TaskScheduler.tasks s' = TaskScheduler.tasks s ++ [t]) /\
     TaskScheduler.namedTasks s' = TaskScheduler.namedTasks s) /\
    (let s' := TaskScheduler.schedule_named_task name task s in
     TaskScheduler.tasks s' = TaskScheduler.tasks s /\
     exists before after,
       TaskScheduler.namedTasks s' = before ++ (name, task) :: after /\
       (TaskScheduler.namedTasks s = before ++ after \/
        exists old,
          TaskScheduler.namedTasks s = before ++ (name, old) :: after)).
Proof.
  intros World T CT func args f name task s. split; simpl.
  - split.
    + eexists. apply schedule_task_tasks.
    + apply schedule_task_namedTasks.
  - split; [reflexivity |].
    apply StdMapFacts.assign_shape.
Qed.

(** C8 (as amended).  [execute_all] returns nothing and catches nothing.
    When a task throws, be it of the vector or of the map, the tasks in
    front of it have run, the exception leaves [execute_all] from the state
    the task left, and no task behind it is run.  When no task throws,
    every task of the batch is run, those of the vector and then those of
    the map, each in the world the one in front of it left, and
    [execute_all] returns. *)
Theorem C8_exception_ends_the_batch :
  forall (World : Type) (s : TaskScheduler.Scheduler World)
         (before after : list (TaskScheduler.Task World))
         (failing : TaskScheduler.Task World)
         (w w1 w2 : World) (e : exception),
    let batch := TaskScheduler.tasks s ++
                 map snd (TaskScheduler.namedTasks s) in
    (batch = before ++ failing :: after ->
     in_order (map invoke before) w = (w1, None) ->
     invoke failing w1 = (w2, Some e) ->
     completion_of (TaskScheduler.execute_all s w) = (w2, Some e)) /\
    ((forall task v, In task batch -> snd (invoke task v) = None) ->
     completion_of (TaskScheduler.execute_all s w) =
     (fold_left (fun v task => fst (invoke task v)) batch w, None)).
Proof.
  intros World s before after failing w w1 w2 e batch. split.
  - intros Hbatch Hbefore Hfail.
    rewrite execute_all_completion. fold batch.
    rewrite Hbatch, for_each_app, for_each_in_order, Hbefore. simpl.
    now rewrite Hfail.
  - intros Hnone.
    rewrite execute_all_completion. fold batch.
    rewrite for_each_in_order, in_order_returns.
    + f_equal. generalize w. clear.
      induction batch as [|task batch IH]; intros w; simpl;
        [reflexivity | apply IH].
    + apply Forall_forall. intros one Hone.
      apply in_map_iff in Hone. destruct Hone as (task & <- & Htask).
      intros v. now apply Hnone.
Qed.

(** ** std::sort *)

Module StdSortFacts.
Import StdSort.

Section Facts.
Context {A : Type} (comp : A -> A -> bool).
Hypothesis order : strict_weak_order comp.

Lemma asymmetric x y : comp x y = true -> comp y x = false.
Proof.
  intros Hxy. destruct (comp y x) eqn:Hyx; [|reflexivity].
  pose proof (swo_trans A comp order x y x Hxy Hyx) as Hxx.
  rewrite (swo_irrefl A comp order x) in Hxx. discriminate.
Qed.

(** If [z] is not before [y] and [y] is not before [x], then [z] is
    not before [x]. *)
Lemma not_before_trans x y z :
  comp z y = false -> comp y x = false -> comp z x = false.
Proof.
  intros Hzy Hyx. destruct (comp z x) eqn:Hzx; [|reflexivity].
  destruct (comp y z) eqn:Hyz.
  - rewrite (swo_trans A comp order y z x Hyz Hzx) in Hyx. discriminate.
  - destruct (comp x y) eqn:Hxy.
    + rewrite (swo_trans A comp order z x y Hzx Hxy) in Hzy. discriminate.
    + destruct (swo_incomp A comp order z y x Hzy Hyz Hyx Hxy) as [Hf _].
      rewrite Hf in Hzx. discriminate.
Qed.

Lemma insert_before_ties_perm x l :
  Permutation (x :: l) (insert_before_ties comp x l).
Proof.
  induction l as [|y l IH]; simpl.
  - reflexivity.
  - destruct (comp y x).
    + rewrite perm_swap. now constructor.
    + reflexivity.
Qed.

Lemma insert_after_ties_perm x l :
  Permutation (x :: l) (insert_after_ties comp x l).
Proof.
  induction l as [|y l IH]; simpl.
  - reflexivity.
  - destruct (comp x y).
    + reflexivity.
    + rewrite perm_swap. now constructor.
Qed.

Lemma insert_before_ties_sorted x l :
  sorted comp l -> sorted comp (insert_before_ties comp x l).
Proof.
  unfold sorted.
  induction l as [|y l IH]; simpl; intros Hl.
  - repeat constructor.
  - inversion Hl as [|? ? Hl' Hy]; subst.
    destruct (comp y x) eqn:Hyx.
    + constructor; [now apply IH |].
      eapply Permutation_Forall; [apply insert_before_ties_perm |].
      constructor; [now apply asymmetric | exact Hy].
    + constructor; [exact Hl |].
      constructor; [exact Hyx |].
      eapply Forall_impl; [|exact Hy].
      intros z Hzy. now apply not_before_trans with y.
Qed.

Lemma insert_after_ties_sorted x l :
  sorted comp l -> sorted comp (insert_after_ties comp x l).
Proof.
  unfold sorted.
  induction l as [|y l IH]; simpl; intros Hl.
  - repeat constructor.
  - inversion Hl as [|? ? Hl' Hy]; subst.
    destruct (comp x y) eqn:Hxy.
    + constructor; [exact Hl |].
      constructor; [now apply asymmetric |].
      eapply Forall_impl; [|exact Hy].
      intros z Hzy. simpl in Hzy.
      destruct (comp z x) eqn:Hzx; [|reflexivity].
      rewrite (swo_trans A comp order z x y Hzx Hxy) in Hzy. discriminate.
    + constructor; [now apply IH |].
      eapply Permutation_Forall; [apply insert_after_ties_perm |].
      constructor; [exact Hxy | exact Hy].
Qed.
End Facts.

(** Both sorts do what the standard promises. *)
Lemma sort_keeping_ties_contract {A : Type} :
  contract (@sort_keeping_ties A).
Proof.
  intros comp l order. unfold sort_keeping_ties.
  induction l as [|x l [IHp IHs]]; simpl.
  - split; [reflexivity | constructor].
  - split.
    + rewrite <- insert_before_ties_perm. now constructor.
    + now apply insert_before_ties_sorted.
Qed.

Lemma sort_swapping_ties_contract {A : Type} :
  contract (@sort_swapping_ties A).
Proof.
  intros comp l order. unfold sort_swapping_ties.
  induction l as [|x l [IHp IHs]]; simpl.
  - split; [reflexivity | constructor].
  - split.
    + rewrite <- insert_after_ties_perm. now constructor.
    + now apply insert_after_ties_sorted.
Qed.
End StdSortFacts.

(** ** std::sort of libstdc++ keeps to the standard *)

Module LibstdcxxFacts.
Import Libstdcxx.

#[local] Arguments Nat.div : simpl never.
#[local] Arguments Nat.mul : simpl never.

Section Ranges.
Context {A : Type}.

Lemma assign_length (i : nat) (v : A) (l : list A) :
  List.length (assign i v l) = List.length l.
Proof.
  revert i; induction l as [|x l IH]; intros [|i]; simpl; auto.
Qed.

Lemma assign_outside (i : nat) (v : A) (l : list A) :
  List.length l <= i -> assign i v l = l.
Proof.
  revert i; induction l as [|x l IH]; intros [|i] Hi; simpl in *;
    try reflexivity; try lia.
  f_equal. apply IH. lia.
Qed.

Lemma assign_held (i : nat) (v : A) (l : list A) :
  nth_error l i = Some v -> assign i v l = l.
Proof.
  revert i; induction l as [|x l IH]; intros [|i] Hi; simpl in *;
    try discriminate.
  - now injection Hi as ->.
  - f_equal. now apply IH.
Qed.

Lemma assign_twice (i : nat) (v v' : A) (l : list A) :
  assign i v (assign i v' l) = assign i v l.
Proof.
  revert i; induction l as [|x l IH]; intros [|i]; simpl; try reflexivity.
  f_equal. apply IH.
Qed.

Lemma nth_error_assign (i j : nat) (v : A) (l : list A) :
  i <> j -> nth_error (assign i v l) j = nth_error l j.
Proof.
  revert i j; induction l as [|x l IH]; intros [|i] [|j] Hne; simpl;
    try reflexivity; try contradiction.
  apply IH. lia.
Qed.

Lemma nth_error_assigned (i : nat) (v : A) (l : list A) :
  i < List.length l -> nth_error (assign i v l) i = Some v.
Proof.
  revert i; induction l as [|x l IH]; intros [|i] Hi; simpl in *;
    try lia; [reflexivity |].
  apply IH. lia.
Qed.

(** A list with a given element at a given position. *)
Lemma assign_at (before after : list A) (x v : A) :
  assign (List.length before) v (before ++ x :: after) = before ++ v :: after.
Proof.
  induction before as [|y before IH]; simpl; [reflexivity | now rewrite IH].
Qed.

Lemma assign_next (before after : list A) (y x v : A) :
  assign (S (List.length before)) v (before ++ y :: x :: after) =
  before ++ y :: v :: after.
Proof.
  induction before as [|z before IH]; [reflexivity |].
  change (z :: assign (S (List.length before)) v
                 (before ++ y :: x :: after) =
          z :: before ++ y :: v :: after).
  now rewrite IH.
Qed.

Lemma nth_error_at (before after : list A) (x : A) :
  nth_error (before ++ x :: after) (List.length before) = Some x.
Proof.
  rewrite nth_error_app2 by lia. now rewrite Nat.sub_diag.
Qed.

(** Putting [x] where [b] stands, with [b] kept aside, is a
    rearrangement. *)
Lemma assign_aside (j : nat) (x b : A) (l : list A) :
  nth_error l j = Some b -> Permutation (b :: assign j x l) (x :: l).
Proof.
  revert j; induction l as [|y l IH]; intros [|j] Hj; simpl in *;
    try discriminate.
  - injection Hj as ->. apply perm_swap.
  - apply Permutation_trans with (y :: b :: assign j x l);
      [apply perm_swap |].
    apply Permutation_trans with (y :: x :: l); [|apply perm_swap].
    constructor. now apply IH.
Qed.

(** Two elements that change places. *)
Lemma assign_both (i j : nat) (a b : A) (l : list A) :
  nth_error l i = Some a -> nth_error l j = Some b ->
  Permutation (assign j a (assign i b l)) l.
Proof.
  revert i j; induction l as [|y l IH]; intros [|i] [|j] Hi Hj; simpl in *;
    try discriminate.
  - injection Hi as ->. injection Hj as ->. reflexivity.
  - injection Hi as ->. now apply assign_aside.
  - injection Hj as ->. now apply assign_aside.
  - constructor. now apply IH.
Qed.

Lemma move_next (before after : list A) (y x : A) :
  move (List.length before) (S (List.length before))
    (before ++ y :: x :: after) =
  before ++ y :: y :: after.
Proof.
  unfold move. rewrite nth_error_at. apply assign_next.
Qed.

Lemma move_length (i j : nat) (l : list A) :
  List.length (move i j l) = List.length l.
Proof.
  unfold move. destruct (nth_error l i); [apply assign_length | reflexivity].
Qed.

(** An element goes into the hole and leaves the hole where it was: with
    [v] in the hole the list has the same elements before and after. *)
Lemma hole_moves (c h : nat) (v : A) (l : list A) :
  c < List.length l -> h < List.length l ->
  Permutation (assign c v (move c h l)) (assign h v l).
Proof.
  intros Hc Hh. unfold move.
  destruct (nth_error l c) as [y|] eqn:Hy;
    [|apply nth_error_None in Hy; lia].
  destruct (Nat.eq_dec c h) as [-> | Hne].
  - now rewrite assign_twice.
  - rewrite <- (assign_twice h y v l).
    apply assign_both.
    + now apply nth_error_assigned.
    + now rewrite nth_error_assign by congruence.
Qed.

Lemma iter_swap_perm (i j : nat) (l : list A) :
  Permutation (iter_swap i j l) l.
Proof.
  unfold iter_swap.
  destruct (nth_error l i) as [a|] eqn:Hi; [|reflexivity].
  destruct (nth_error l j) as [b|] eqn:Hj; [|reflexivity].
  now apply assign_both.
Qed.
End Ranges.


Section Rearranging.
Context {A : Type} (comp : A -> A -> bool).

Lemma move_median_to_first_perm (result a b c : nat) (l : list A) :
  Permutation (move_median_to_first comp result a b c l) l.
Proof.
  unfold move_median_to_first.
  repeat match goal with
         | |- context [if ?test then _ else _] => destruct test
         end; apply iter_swap_perm.
Qed.

Lemma forward_to_inside (steps first pivot : nat) (l : list A) :
  first <= List.length l ->
  forward_to comp steps first pivot l <= List.length l.
Proof.
  revert first; induction steps as [|steps IH]; intros first Hfirst; simpl.
  - exact Hfirst.
  - unfold comp_iter at 1.
    destruct (nth_error l first) as [a|] eqn:Ha; [|exact Hfirst].
    assert (first < List.length l)
      by (apply nth_error_Some; congruence).
    destruct (nth_error l pivot) as [b|]; [|exact Hfirst].
    destruct (comp a b); [apply IH; lia | exact Hfirst].
Qed.

Lemma backward_to_le (steps last pivot : nat) (l : list A) :
  backward_to comp steps last pivot l <= last.
Proof.
  revert last; induction steps as [|steps IH]; intros last; simpl.
  - lia.
  - destruct (comp_iter comp l pivot last); [|lia].
    specialize (IH (last - 1)). lia.
Qed.

Lemma unguarded_partition_spec (rounds first last pivot : nat) (l : list A) :
  first <= List.length l -> last <= List.length l ->
  Permutation (snd (unguarded_partition comp rounds first last pivot l)) l /\
  fst (unguarded_partition comp rounds first last pivot l) <= List.length l.
Proof.
  revert first last l; induction rounds as [|rounds IH];
    intros first last l Hfirst Hlast; simpl.
  - split; [reflexivity | exact Hfirst].
  - pose proof (forward_to_inside (List.length l) first pivot l Hfirst)
      as Hinside.
    pose proof (backward_to_le (List.length l) (last - 1) pivot l) as Hback.
    set (first1 := forward_to comp (List.length l) first pivot l) in *.
    set (last1 := backward_to comp (List.length l) (last - 1) pivot l) in *.
    destruct (first1 <? last1)%nat eqn:Hlt.
    + apply Nat.ltb_lt in Hlt.
      pose proof (iter_swap_perm first1 last1 l) as Hswap.
      pose proof (Permutation_length Hswap) as Hlen.
      destruct (IH (S first1) last1 (iter_swap first1 last1 l))
        as [Hperm Hcut]; try lia.
      split.
      * now rewrite Hperm.
      * now rewrite Hlen in Hcut.
    + split; [reflexivity | exact Hinside].
Qed.

Lemma unguarded_partition_pivot_spec (first last : nat) (l : list A) :
  first < last -> last <= List.length l ->
  Permutation (snd (unguarded_partition_pivot comp first last l)) l /\
  fst (unguarded_partition_pivot comp first last l) <= List.length l.
Proof.
  intros Hfirst Hlast. unfold unguarded_partition_pivot.
  set (mid := first + (last - first) / 2).
  pose proof (move_median_to_first_perm first (first + 1) mid (last - 1) l)
    as Hmedian.
  pose proof (Permutation_length Hmedian) as Hlen.
  destruct (unguarded_partition_spec
              (List.length l) (first + 1) last first
              (move_median_to_first comp first (first + 1) mid (last - 1) l))
    as [Hperm Hcut]; try lia.
  split.
  - now rewrite Hperm.
  - now rewrite Hlen in Hcut.
Qed.

(** *** The heap *)

Lemma half_le (n : nat) : 2 * (n / 2) <= n.
Proof. pose proof (Nat.div_mod_eq n 2). lia. Qed.

Lemma push_heap_perm (steps first hole top : nat) (value : A) (l : list A) :
  first + hole < List.length l ->
  Permutation (push_heap comp steps first hole top value l)
    (assign (first + hole) value l).
Proof.
  revert hole l; induction steps as [|steps IH]; intros hole l Hhole; simpl.
  - reflexivity.
  - destruct ((top <? hole)%nat &&
              comp_iter_val comp l (first + (hole - 1) / 2) value);
      [|reflexivity].
    pose proof (half_le (hole - 1)) as Hhalf.
    rewrite IH by (rewrite move_length; lia).
    apply hole_moves; lia.
Qed.

Lemma hole_down_spec (steps first hole len : nat) (value : A) (l : list A) :
  first + len <= List.length l ->
  first + hole < List.length l ->
  Permutation
    (assign (first + fst (hole_down comp steps first hole len l)) value
       (snd (hole_down comp steps first hole len l)))
    (assign (first + hole) value l) /\
  first + fst (hole_down comp steps first hole len l) < List.length l /\
  List.length (snd (hole_down comp steps first hole len l)) = List.length l.
Proof.
  revert hole l; induction steps as [|steps IH]; intros hole l Hlen Hhole;
    simpl.
  - repeat split; [reflexivity | exact Hhole].
  - destruct (hole <? (len - 1) / 2)%nat eqn:Hlt;
      [|repeat split; [reflexivity | exact Hhole]].
    apply Nat.ltb_lt in Hlt.
    pose proof (half_le (len - 1)) as Hhalf.
    set (right := 2 * (hole + 1)) in *.
    set (child := if comp_iter comp l (first + right) (first + (right - 1))
                  then right - 1 else right).
    assert (Hchild : first + child < List.length l).
    { subst child right.
      destruct (comp_iter comp l _ _); lia. }
    destruct (IH child (move (first + child) (first + hole) l))
      as (Hperm & Hin & Hsame); try (rewrite move_length; lia).
    rewrite move_length in Hin, Hsame.
    repeat split; [|exact Hin | exact Hsame].
    rewrite Hperm. apply hole_moves; lia.
Qed.

Lemma adjust_heap_perm (first hole len : nat) (value : A) (l : list A) :
  first + len <= List.length l ->
  first + hole < List.length l ->
  Permutation (adjust_heap comp first hole len value l)
    (assign (first + hole) value l).
Proof.
  intros Hlen Hhole. unfold adjust_heap.
  destruct (hole_down_spec len first hole len value l Hlen Hhole)
    as (Hperm & Hin & Hsame).
  destruct (hole_down comp len first hole len l) as [h l1];
    cbn [fst snd] in *.
  destruct (Nat.even len && (2 <=? len)%nat && (h =? (len - 2) / 2)%nat)
    eqn:Hlast.
  - apply andb_prop in Hlast. destruct Hlast as [Hlast Hh].
    apply andb_prop in Hlast. destruct Hlast as [_ Htwo].
    apply Nat.leb_le in Htwo. apply Nat.eqb_eq in Hh.
    pose proof (half_le (len - 2)) as Hhalf.
    cbv iota beta zeta.
    rewrite push_heap_perm by (rewrite move_length; lia).
    rewrite <- Hperm. apply hole_moves; lia.
  - cbv iota beta zeta.
    rewrite push_heap_perm by lia. exact Hperm.
Qed.

Lemma pop_heap_perm (first last result : nat) (l : list A) :
  first < List.length l ->
  first + (last - first) <= List.length l ->
  Permutation (pop_heap comp first last result l) l.
Proof.
  intros Hfirst Hlast. unfold pop_heap.
  destruct (nth_error l result) as [value|] eqn:Hresult; [|reflexivity].
  rewrite adjust_heap_perm by (rewrite ?move_length; lia).
  rewrite Nat.add_0_r. unfold move.
  destruct (nth_error l first) as [top|] eqn:Htop;
    [|apply nth_error_None in Htop; lia].
  now apply assign_both.
Qed.

Lemma heapify_perm (parent first len : nat) (l : list A) :
  first + len <= List.length l -> parent < len ->
  Permutation (heapify comp parent first len l) l.
Proof.
  revert l; induction parent as [|parent IH]; intros l Hlen Hparent; simpl.
  - destruct (nth_error l (first + 0)) as [value|] eqn:Hvalue;
      [|reflexivity].
    rewrite adjust_heap_perm by lia. now rewrite assign_held.
  - assert (Hstep : Permutation
                      match nth_error l (first + S parent) with
                      | Some value =>
                          adjust_heap comp first (S parent) len value l
                      | None => l
                      end l).
    { destruct (nth_error l (first + S parent)) as [value|] eqn:Hvalue;
        [|reflexivity].
      rewrite adjust_heap_perm by lia. now rewrite assign_held. }
    rewrite IH; [exact Hstep | | lia].
    now rewrite (Permutation_length Hstep).
Qed.

Lemma make_heap_perm (first last : nat) (l : list A) :
  first + (last - first) <= List.length l ->
  Permutation (make_heap comp first last l) l.
Proof.
  intros Hlen. unfold make_heap.
  destruct (last - first <? 2)%nat eqn:Hsmall; [reflexivity |].
  apply Nat.ltb_ge in Hsmall.
  pose proof (half_le (last - first - 2)) as Hhalf.
  apply heapify_perm; lia.
Qed.

(** A loop whose body rearranges the range rearranges it. *)
Lemma fold_left_perm (body : list A -> nat -> list A) (positions : list nat)
    (l : list A) :
  (forall l' i, List.length l' = List.length l ->
                Permutation (body l' i) l') ->
  Permutation (fold_left body positions l) l.
Proof.
  intros Hbody. revert l Hbody.
  induction positions as [|i positions IH]; intros l Hbody; simpl.
  - reflexivity.
  - pose proof (Hbody l i eq_refl) as Hstep.
    rewrite IH; [exact Hstep |].
    intros l' j Hl'. apply Hbody.
    now rewrite Hl', (Permutation_length Hstep).
Qed.

Lemma heap_select_perm (first middle last : nat) (l : list A) :
  first < List.length l ->
  first + (middle - first) <= List.length l ->
  Permutation (heap_select comp first middle last l) l.
Proof.
  intros Hfirst Hmiddle. unfold heap_select.
  pose proof (make_heap_perm first middle l Hmiddle) as Hheap.
  rewrite fold_left_perm; [exact Hheap |].
  intros l' i Hl'. rewrite (Permutation_length Hheap) in Hl'.
  destruct (comp_iter comp l' i first); [|reflexivity].
  apply pop_heap_perm; lia.
Qed.

Lemma sort_heap_loop_perm (first count : nat) (l : list A) :
  first + count <= List.length l ->
  Permutation (sort_heap_loop comp first count l) l.
Proof.
  revert l; induction count as [|count IH]; intros l Hcount; simpl.
  - reflexivity.
  - destruct (1 <? S count)%nat eqn:Hmore; [|reflexivity].
    apply Nat.ltb_lt in Hmore.
    assert (Hpop : Permutation
                     (pop_heap comp first (first + count) (first + count) l) l)
      by (apply pop_heap_perm; lia).
    rewrite IH; [exact Hpop |].
    rewrite (Permutation_length Hpop). lia.
Qed.

Lemma partial_sort_perm (first last : nat) (l : list A) :
  first < last -> last <= List.length l ->
  Permutation (partial_sort comp first last last l) l.
Proof.
  intros Hfirst Hlast. unfold partial_sort, sort_heap.
  assert (Hselect : Permutation (heap_select comp first last last l) l)
    by (apply heap_select_perm; lia).
  rewrite sort_heap_loop_perm; [exact Hselect |].
  rewrite (Permutation_length Hselect). lia.
Qed.

Lemma introsort_loop_perm (depth_limit first last : nat) (l : list A) :
  last <= List.length l ->
  Permutation (introsort_loop comp depth_limit first last l) l.
Proof.
  revert first last l; induction depth_limit as [|depth_limit IH];
    intros first last l Hlast; simpl.
  - destruct (_S_threshold <? last - first)%nat eqn:Hbig; [|reflexivity].
    apply Nat.ltb_lt in Hbig. unfold _S_threshold in Hbig.
    apply partial_sort_perm; lia.
  - destruct (_S_threshold <? last - first)%nat eqn:Hbig; [|reflexivity].
    apply Nat.ltb_lt in Hbig. unfold _S_threshold in Hbig.
    destruct (unguarded_partition_pivot_spec first last l)
      as [Hperm Hcut]; try lia.
    destruct (unguarded_partition_pivot comp first last l) as [cut l1];
      simpl in *.
    assert (Hback : Permutation
                      (introsort_loop comp depth_limit cut last l1) l1).
    { apply IH. now rewrite (Permutation_length Hperm). }
    rewrite IH.
    + now rewrite Hback.
    + now rewrite (Permutation_length Hback), (Permutation_length Hperm).
Qed.
End Rearranging.

(** *** The insertion sort *)

Section Inserting.
Context {A : Type} (comp : A -> A -> bool).

Lemma insert_after_ties_last (val y : A) (p : list A) :
  comp val y = true ->
  StdSort.insert_after_ties comp val (p ++ [y]) =
  StdSort.insert_after_ties comp val p ++ [y].
Proof.
  intros Hy. induction p as [|z p IH]; simpl.
  - now rewrite Hy.
  - destruct (comp val z); [reflexivity | now rewrite IH].
Qed.

Lemma insert_after_ties_behind (val : A) (l : list A) :
  Forall (fun z => comp val z = false) l ->
  StdSort.insert_after_ties comp val l = l ++ [val].
Proof.
  induction 1 as [|z l Hz _ IH]; simpl.
  - reflexivity.
  - now rewrite Hz, IH.
Qed.

Lemma sorted_front (p : list A) (y : A) :
  StdSort.sorted comp (p ++ [y]) ->
  StdSort.sorted comp p /\ Forall (fun z => comp y z = false) p.
Proof.
  unfold StdSort.sorted. induction p as [|z p IH]; simpl; intros Hp.
  - split; constructor.
  - inversion Hp as [|? ? Hrest Hz]; subst.
    destruct (IH Hrest) as [Hsorted Hall].
    split.
    + constructor; [exact Hsorted |].
      apply Forall_app in Hz. tauto.
    + constructor; [|exact Hall].
      apply Forall_app in Hz. destruct Hz as [_ Hy].
      now inversion Hy.
Qed.

Lemma move_backward_shifts (val x : A) (b post : list A) :
  assign 0 val (move_backward 0 (List.length b) (b ++ x :: post)) =
  val :: b ++ post.
Proof.
  revert x post. induction b as [|y b IH] using rev_ind; intros x post.
  - reflexivity.
  - rewrite length_app, Nat.add_1_r. cbn [move_backward Nat.add].
    rewrite <- !app_assoc. cbn [app].
    rewrite move_next. apply IH.
Qed.

Section Ordered.
Hypothesis order : StdSort.strict_weak_order comp.

Lemma linear_insert_inserts (val x : A) (pre post : list A) :
  StdSort.sorted comp pre ->
  linear_insert comp val (List.length pre) (pre ++ x :: post) =
  StdSort.insert_after_ties comp val pre ++ post.
Proof.
  revert x post. induction pre as [|y p IH] using rev_ind;
    intros x post Hsorted.
  - reflexivity.
  - destruct (sorted_front p y Hsorted) as [Hp Hall].
    rewrite length_app, Nat.add_1_r. cbn [linear_insert].
    rewrite <- !app_assoc. cbn [app].
    unfold comp_val_iter. rewrite nth_error_at.
    destruct (comp val y) eqn:Hy.
    + rewrite move_next, IH by exact Hp.
      rewrite insert_after_ties_last by exact Hy.
      now rewrite <- app_assoc.
    + rewrite assign_next, insert_after_ties_behind.
      * now rewrite <- !app_assoc.
      * apply Forall_app. split; [|now repeat constructor].
        eapply Forall_impl; [|exact Hall].
        intros z Hz.
        exact (StdSortFacts.not_before_trans comp order z y val Hy Hz).
Qed.

Lemma unguarded_linear_insert_inserts (x : A) (pre post : list A) :
  StdSort.sorted comp pre ->
  unguarded_linear_insert comp (List.length pre) (pre ++ x :: post) =
  StdSort.insert_after_ties comp x pre ++ post.
Proof.
  intros Hsorted. unfold unguarded_linear_insert.
  rewrite nth_error_at. now apply linear_insert_inserts.
Qed.

Lemma insertion_step_inserts (x : A) (pre post : list A) :
  StdSort.sorted comp pre ->
  insertion_step comp 0 (List.length pre) (pre ++ x :: post) =
  StdSort.insert_after_ties comp x pre ++ post.
Proof.
  intros Hsorted. unfold insertion_step.
  destruct (comp_iter comp (pre ++ x :: post) (List.length pre) 0) eqn:Hfront;
    [|now apply unguarded_linear_insert_inserts].
  unfold comp_iter in Hfront. rewrite nth_error_at in *.
  rewrite Nat.sub_0_r, move_backward_shifts.
  destruct pre as [|y pre]; simpl in *.
  - reflexivity.
  - now rewrite Hfront.
Qed.

Lemma inserted_sorted (p acc : list A) :
  StdSort.sorted comp acc -> StdSort.sorted comp (StdSort.inserted comp p acc).
Proof.
  revert acc; induction p as [|x p IH]; intros acc Hacc; simpl.
  - exact Hacc.
  - apply IH. now apply StdSortFacts.insert_after_ties_sorted.
Qed.

Lemma inserted_perm (p acc : list A) :
  Permutation (acc ++ p) (StdSort.inserted comp p acc).
Proof.
  revert acc; induction p as [|x p IH]; intros acc; simpl.
  - now rewrite app_nil_r.
  - rewrite <- IH, <- (StdSortFacts.insert_after_ties_perm comp x acc).
    now rewrite <- Permutation_middle.
Qed.

Lemma inserted_length (p acc : list A) :
  List.length (StdSort.inserted comp p acc) = List.length acc + List.length p.
Proof.
  rewrite <- (Permutation_length (inserted_perm p acc)).
  apply length_app.
Qed.

(** A loop that inserts the elements from [begin + length pre] on, one
    after the other, into the sorted range in front of them. *)
Lemma insertion_loop
    (step : nat -> list A -> list A) (pre mid post : list A) :
  (forall x pre' post',
      StdSort.sorted comp pre' ->
      step (List.length pre') (pre' ++ x :: post') =
      StdSort.insert_after_ties comp x pre' ++ post') ->
  StdSort.sorted comp pre ->
  fold_left (fun l i => step i l)
    (seq (List.length pre) (List.length mid)) (pre ++ mid ++ post) =
  StdSort.inserted comp mid pre ++ post.
Proof.
  intros Hstep. revert pre.
  induction mid as [|x mid IH]; intros pre Hpre; simpl.
  - reflexivity.
  - rewrite Hstep by exact Hpre.
    specialize (IH (StdSort.insert_after_ties comp x pre)).
    rewrite <- (Permutation_length
                  (StdSortFacts.insert_after_ties_perm comp x pre)) in IH.
    simpl in IH. apply IH.
    now apply StdSortFacts.insert_after_ties_sorted.
Qed.

Lemma insertion_sort_inserts (m : nat) (l : list A) :
  m <= List.length l ->
  insertion_sort comp 0 m l = StdSort.inserted comp (firstn m l) [] ++ skipn m l.
Proof.
  intros Hm. unfold insertion_sort.
  destruct m as [|m]; [reflexivity |].
  destruct l as [|x l]; [simpl in Hm; lia |].
  simpl in Hm. rewrite Nat.sub_succ, Nat.sub_0_r.
  pose proof (insertion_loop (insertion_step comp 0)
                [x] (firstn m l) (skipn m l)) as Hloop.
  rewrite length_firstn, Nat.min_l in Hloop by lia.
  simpl in Hloop. rewrite firstn_skipn in Hloop.
  rewrite Hloop; [reflexivity | | repeat constructor].
  intros y pre' post' Hpre'. now apply insertion_step_inserts.
Qed.

Lemma final_insertion_sort_inserts (l : list A) :
  final_insertion_sort comp 0 (List.length l) l = StdSort.inserted comp l [].
Proof.
  unfold final_insertion_sort. rewrite Nat.sub_0_r. cbn [Nat.add].
  generalize _S_threshold. intros t.
  destruct (t <? List.length l)%nat eqn:Hbig.
  - apply Nat.ltb_lt in Hbig.
    rewrite insertion_sort_inserts by lia.
    unfold unguarded_insertion_sort.
    pose proof (insertion_loop (unguarded_linear_insert comp)
                  (StdSort.inserted comp (firstn t l) []) (skipn t l) []) as Hloop.
    rewrite inserted_length, length_firstn, Nat.min_l, length_skipn in Hloop
      by lia.
    cbn [List.length Nat.add] in Hloop. rewrite !app_nil_r in Hloop.
    rewrite Hloop.
    + unfold StdSort.inserted. rewrite <- fold_left_app.
      now rewrite firstn_skipn.
    + intros y pre' post' Hpre'.
      now apply unguarded_linear_insert_inserts.
    + apply inserted_sorted. constructor.
  - apply Nat.ltb_ge in Hbig.
    rewrite insertion_sort_inserts by lia.
    now rewrite firstn_all, skipn_all, app_nil_r.
Qed.

(** What [std::sort] returns: the range as the introsort loop leaves
    it, sorted by insertion. *)
Lemma sort_inserts (l : list A) :
  sort comp l =
  StdSort.inserted comp (introsort_loop comp (Nat.log2 (List.length l) * 2) 0
              (List.length l) l) [].
Proof.
  unfold sort. destruct l as [|x l]; [reflexivity |].
  set (n := List.length (x :: l)).
  set (l1 := introsort_loop comp (Nat.log2 n * 2) 0 n (x :: l)).
  assert (Hlen : List.length l1 = n).
  { subst l1. apply Permutation_length.
    apply introsort_loop_perm. subst n. lia. }
  rewrite <- Hlen at 1. apply final_insertion_sort_inserts.
Qed.

(** Up to sixteen elements there is only the insertion sort. *)
Lemma sort_small (l : list A) :
  List.length l <= 16 -> sort comp l = StdSort.inserted comp l [].
Proof.
  intros Hsmall. rewrite sort_inserts.
  destruct (Nat.log2 (List.length l) * 2) as [|depth]; simpl;
    replace (_S_threshold <? List.length l - 0)%nat with false;
    try reflexivity;
    symmetry; apply Nat.ltb_ge; unfold _S_threshold; lia.
Qed.

Lemma filter_none (same : A -> bool) (l : list A) :
  (forall z, In z l -> same z = false) -> filter same l = [].
Proof.
  induction l as [|y l IH]; simpl; intros Hnone.
  - reflexivity.
  - rewrite (Hnone y) by now left. apply IH.
    intros z Hz. apply Hnone. now right.
Qed.

(** Which elements of a class of equivalent elements come first is not
    changed by the insertions. *)
Lemma inserted_keeps_ties (same : A -> bool) (p acc : list A) :
  (forall a b, same a = true -> same b = true -> comp a b = false) ->
  StdSort.sorted comp acc ->
  filter same (StdSort.inserted comp p acc) = filter same acc ++ filter same p.
Proof.
  intros Hsame. revert acc; induction p as [|x p IH]; intros acc Hacc; simpl.
  - now rewrite app_nil_r.
  - rewrite IH by now apply StdSortFacts.insert_after_ties_sorted.
    assert (Hinsert :
              filter same (StdSort.insert_after_ties comp x acc) =
              filter same acc ++ filter same [x]).
    { clear IH. induction acc as [|y acc IHacc]; simpl.
      - reflexivity.
      - inversion Hacc as [|? ? Hrest Hy]; subst.
        destruct (comp x y) eqn:Hxy; simpl.
        + destruct (same x) eqn:Hx; [|now rewrite app_nil_r].
          assert (Hnone : filter same (y :: acc) = []).
          { apply filter_none. intros z Hz.
            destruct (same z) eqn:Hsz; [|reflexivity].
            pose proof (Hsame x z Hx Hsz) as Hxz.
            assert (Hzy : comp z y = false).
            { destruct Hz as [<- | Hz];
                [apply (StdSort.swo_irrefl A comp order) |].
              rewrite Forall_forall in Hy. now apply Hy. }
            rewrite (StdSortFacts.not_before_trans comp order y z x Hxz Hzy)
              in Hxy. discriminate. }
          simpl in Hnone. now rewrite Hnone.
        + destruct (same y); simpl; now rewrite IHacc. }
    rewrite Hinsert. simpl. destruct (same x); simpl.
    + now rewrite <- app_assoc.
    + now rewrite app_nil_r.
Qed.
End Ordered.
End Inserting.

(** [std::sort] of libstdc++ does what the standard promises. *)
Theorem sort_contract {A : Type} : StdSort.contract (@sort A).
Proof.
  intros comp l order. rewrite sort_inserts by exact order. split.
  - rewrite <- inserted_perm by exact order. simpl.
    symmetry. apply introsort_loop_perm. lia.
  - apply inserted_sorted; [exact order | constructor].
Qed.

(** Up to sixteen elements it keeps equivalent elements in their order. *)
Theorem sort_small_keeps_ties {A : Type} (comp : A -> A -> bool)
    (same : A -> bool) (l : list A) :
  StdSort.strict_weak_order comp ->
  (forall a b, same a = true -> same b = true -> comp a b = false) ->
  List.length l <= 16 ->
  filter same (sort comp l) = filter same l.
Proof.
  intros order Hsame Hsmall.
  rewrite sort_small by assumption.
  rewrite inserted_keeps_ties by (try assumption; constructor).
  reflexivity.
Qed.

End LibstdcxxFacts.

(** ** The scheduler that sorts by priority *)

Section PriorityFacts.
Import ModernAsyncDesign.
Context {World : Type}.

(** The lambda handed to [std::sort] is a comparison of the kind the
    standard asks for. *)
Lemma higher_priority_order :
  StdSort.strict_weak_order (@higher_priority World).
Proof.
  unfold higher_priority, getPriority.
  constructor.
  - intros x. rewrite Z.gtb_ltb. apply Z.ltb_irrefl.
  - intros x y z. rewrite !Z.gtb_ltb, !Z.ltb_lt. lia.
  - intros x y z. rewrite !Z.gtb_ltb, !Z.ltb_ge. lia.
Qed.

Lemma sorted_by_priority (l : list (Task World)) :
  StdSort.sorted higher_priority l ->
  StronglySorted (fun a b => (priority a >= priority b)%Z) l.
Proof.
  unfold StdSort.sorted. intros Hl.
  eapply StronglySorted_ind with
    (P := StronglySorted (fun a b => (priority a >= priority b)%Z));
    [constructor | | exact Hl].
  intros a l' _ IH Ha. constructor; [exact IH |].
  eapply Forall_impl; [|exact Ha].
  intros b. unfold higher_priority, getPriority.
  rewrite Z.gtb_ltb, Z.ltb_ge. lia.
Qed.
End PriorityFacts.

(** C3 (as amended).  With whatever [std::sort] does within what the
    standard promises: [execute_all] leaves in the vector the tasks that
    were submitted, each as often as it was submitted, in an order in
    which no task stands before one of higher priority, and calls
    [execute] on them in this order, one after the other, up to the first
    one that throws.  Which of two tasks of equal priority comes first is
    not settled. *)
Theorem C3_priority_descending :
  forall (World : Type)
         (std_sort : (ModernAsyncDesign.Task World ->
                      ModernAsyncDesign.Task World -> bool) ->
                     list (ModernAsyncDesign.Task World) ->
                     list (ModernAsyncDesign.Task World))
         (s : ModernAsyncDesign.TaskScheduler World) (w : World),
    StdSort.contract std_sort ->
    let r := ModernAsyncDesign.execute_all std_sort s w in
    let order := ModernAsyncDesign.tasks (object_after r) in
    Permutation (ModernAsyncDesign.tasks s) order /\
    StronglySorted
      (fun a b =>
         (ModernAsyncDesign.priority a >= ModernAsyncDesign.priority b)%Z)
      order /\
    completion_of r = in_order (map ModernAsyncDesign.execute order) w.
Proof.
  intros World std_sort s w Hsort r order.
  destruct (Hsort ModernAsyncDesign.higher_priority
              (ModernAsyncDesign.tasks s) higher_priority_order)
    as [Hperm Hsorted].
  assert (Horder : order =
                   std_sort ModernAsyncDesign.higher_priority
                     (ModernAsyncDesign.tasks s)).
  { subst order r. unfold ModernAsyncDesign.execute_all, object_after; simpl.
    now destruct (for_each ModernAsyncDesign.execute _ w). }
  repeat split.
  - now rewrite Horder.
  - rewrite Horder. now apply sorted_by_priority.
  - rewrite Horder, <- for_each_in_order.
    subst r. unfold ModernAsyncDesign.execute_all; simpl.
    apply completion_of_pair.
Qed.

(** C4 (as amended).  For the FIFO scheduler: when [execute_all] returns,
    the vector of anonymous tasks is empty, and a second [execute_all]
    calls the named tasks and nothing else.  The scheduler that sorts by
    priority keeps its tasks: with whatever [std::sort] does within what
    the standard promises, its vector holds after [execute_all] the tasks
    it held before, each as often, sorted, and a second [execute_all]
    calls [execute] on all of them again, one after the other in a sorted
    order. *)
Theorem C4_execute_all_clears_vector :
  forall (World : Type) (s : TaskScheduler.Scheduler World) (w : World),
    snd (TaskScheduler.execute_all s w) = None ->
    let s' := object_after (TaskScheduler.execute_all s w) in
    (TaskScheduler.tasks s' = [] /\
     forall w',
       completion_of (TaskScheduler.execute_all s' w') =
       in_order (map (fun entry => invoke (snd entry))
                   (TaskScheduler.namedTasks s)) w') /\
    (forall std_sort (p : ModernAsyncDesign.TaskScheduler World)
            (v v' : World),
       StdSort.contract std_sort ->
       let p' := object_after (ModernAsyncDesign.execute_all std_sort p v) in
       Permutation (ModernAsyncDesign.tasks p) (ModernAsyncDesign.tasks p') /\
       StdSort.sorted ModernAsyncDesign.higher_priority
         (ModernAsyncDesign.tasks p') /\
       exists again,
         Permutation (ModernAsyncDesign.tasks p) again /\
         StdSort.sorted ModernAsyncDesign.higher_priority again /\
         completion_of (ModernAsyncDesign.execute_all std_sort p' v') =
         in_order (map ModernAsyncDesign.execute again) v').
Proof.
  intros World s w Hret s'.
  assert (Htasks : TaskScheduler.tasks s' = []).
  { subst s'. unfold TaskScheduler.tasks.
    now rewrite execute_all_returns. }
  split; [split; [exact Htasks |] |].
  - intros w'. rewrite execute_all_in_order, Htasks. subst s'.
    now rewrite execute_all_namedTasks.
  - intros std_sort p v v' Hsort p'.
    assert (Hp' : ModernAsyncDesign.tasks p' =
                  std_sort ModernAsyncDesign.higher_priority
                    (ModernAsyncDesign.tasks p)).
    { subst p'. unfold ModernAsyncDesign.execute_all, object_after; simpl.
      now destruct (for_each ModernAsyncDesign.execute _ v). }
    destruct (Hsort ModernAsyncDesign.higher_priority
                (ModernAsyncDesign.tasks p) higher_priority_order)
      as [Hperm Hsorted].
    destruct (Hsort ModernAsyncDesign.higher_priority
                (ModernAsyncDesign.tasks p') higher_priority_order)
      as [Hperm' Hsorted'].
    split; [now rewrite Hp' |]. split; [now rewrite Hp' |].
    exists (std_sort ModernAsyncDesign.higher_priority
              (ModernAsyncDesign.tasks p')).
    split; [|split; [exact Hsorted' |]].
    + apply Permutation_trans with (ModernAsyncDesign.tasks p');
        [now rewrite Hp' | exact Hperm'].
    + rewrite <- for_each_in_order.
      unfold ModernAsyncDesign.execute_all; simpl.
      apply completion_of_pair.
Qed.

(** C9 (as amended).  A task keeps no record of having been executed:
    [execute] on a task that holds a callable calls it, on the first call
    and on every later one, and reports no error of its own. *)
Theorem C9_execute_runs_again :
  forall (World : Type) (name : string) (prio : Z) (target : body World)
         (w : World),
    let t := ModernAsyncDesign.Task_ctor name prio (Some target) in
    ModernAsyncDesign.execute t w = target w /\
    ModernAsyncDesign.execute t (fst (ModernAsyncDesign.execute t w)) =
    target (fst (target w)).
Proof.
  intros World name prio target w t. split; reflexivity.
Qed.

(** ** The code on concrete inputs *)

(** The order in which tasks run is the order of the lines they write. *)
Lemma for_each_writes (lines : list string) (out : Console) :
  for_each invoke (map (fun line => Some (writes line)) lines) out =
  (out ++ lines, None).
Proof.
  revert out; induction lines as [|line lines IH]; intros out; simpl.
  - now rewrite app_nil_r.
  - unfold writes at 1. rewrite IH, <- app_assoc. reflexivity.
Qed.

(** A, B and C submitted in this order run in this order. *)
Example fifo_run :
  completion_of
    (TaskScheduler.execute_all
       (schedule_plain (says "C")
          (schedule_plain (says "B")
             (schedule_plain (says "A") TaskScheduler.Scheduler_ctor))) []) =
  (["A"; "B"; "C"], None).
Proof. reflexivity. Qed.

(** [schedule_task(writes_names, a, std::move(b))]: the task holds a copy
    of [a] and what was in [b]; [b] is left moved-from, [a] as it was. *)
Example forwarding_run :
  let call := TaskScheduler.schedule_task writes_names
                [lvalue "a"; xvalue "b"] two_resources
                TaskScheduler.Scheduler_ctor in
  completion_of (TaskScheduler.execute_all (fst call) []) =
    (["first_copy"; "second"], None) /\
  snd call "a" = MoveSemantics.ctor 3 "first" /\
  snd call "b" =
    {| MoveSemantics.data := None;
       MoveSemantics.size := 0;
       MoveSemantics.name := "moved_from" |}.
Proof. repeat split. Qed.

(** [schedule_task(writes_names, a, std::move(a))]: the second element
    of the tuple is built first and takes what was in [a]; the first
    element is then a copy of what the move left. *)
Example one_variable_twice_run :
  let call := TaskScheduler.schedule_task writes_names
                [lvalue "a"; xvalue "a"] two_resources
                TaskScheduler.Scheduler_ctor in
  completion_of (TaskScheduler.execute_all (fst call) []) =
    (["moved_from_copy"; "first"], None).
Proof. reflexivity. Qed.

(** After a batch that an exception ended the vector is not cleared: the
    next [execute_all] runs A once more. *)
Example failed_batch_runs_again :
  let first := TaskScheduler.execute_all batch_B_fails [] in
  completion_of
    (TaskScheduler.execute_all (object_after first)
       (fst (completion_of first))) =
  (["A"; "B"; "A"; "B"], Some (runtime_error "B failed")).
Proof. reflexivity. Qed.

(** A task whose callable takes its parameter as an object has given up
    what it captured when it is called a second time. *)
Example by_value_runs_again :
  let first := TaskScheduler.execute_all by_value_then_B [] in
  completion_of first = (["second"; "B"], Some (runtime_error "B failed")) /\
  completion_of
    (TaskScheduler.execute_all (object_after first)
       (fst (completion_of first))) =
  (["second"; "B"; "moved_from"; "B"], Some (runtime_error "B failed")).
Proof. split; reflexivity. Qed.

(** The order of the specification's example: B, C, A. *)
Example priorities_1_5_3_run :
  completion_of
    (ModernAsyncDesign.execute_all Libstdcxx.sort
       priorities_1_5_3 []) = (["B"; "C"; "A"], None) /\
  completion_of
    (ModernAsyncDesign.execute_all StdSort.sort_keeping_ties
       priorities_1_5_3 []) = (["B"; "C"; "A"], None) /\
  completion_of
    (ModernAsyncDesign.execute_all StdSort.sort_swapping_ties
       priorities_1_5_3 []) = (["B"; "C"; "A"], None).
Proof. repeat split. Qed.

(** Two tasks of one priority run in the order of their submission. *)
Example equal_priorities_run :
  completion_of
    (ModernAsyncDesign.execute_all Libstdcxx.sort equal_priorities []) =
  (["A"; "B"], None).
Proof. reflexivity. Qed.

(** Sixteen tasks of one priority run in the order of their submission:
    up to this size [std::sort] of the library is an insertion sort. *)
Example sixteen_equal_run :
  completion_of
    (ModernAsyncDesign.execute_all Libstdcxx.sort
       (submit_all (firstn 16 seventeen_names)) []) =
  (firstn 16 seventeen_names, None).
Proof. vm_compute. reflexivity. Qed.

(** Anonymous tasks in submission order, then named tasks by key. *)
Example mixed_batch_run :
  completion_of (TaskScheduler.execute_all mixed_batch []) =
  (["first"; "second"; "named alpha"; "named beta"], None).
Proof. reflexivity. Qed.

Example mixed_batch_count : TaskScheduler.getTaskCount mixed_batch = 4.
Proof. reflexivity. Qed.

Lemma mixed_batch_reachable : TaskScheduler.reachable mixed_batch.
Proof.
  unfold mixed_batch, schedule_plain.
  apply TaskScheduler.reachable_schedule_named_task.
  apply TaskScheduler.reachable_schedule_task.
  apply TaskScheduler.reachable_schedule_named_task.
  apply TaskScheduler.reachable_schedule_task.
  apply TaskScheduler.reachable_ctor.
Defined.

(** C1 at a call [schedule_task(writes_names, a, std::move(b))] with
    two resource managers, and at a call [schedule_task(ignores,
    std::move(n))] with an [int]. *)
Lemma C1_witness :
  let args := [lvalue "a"; xvalue "b"] in
  let f' :=
    snd (TaskScheduler.schedule_task (World := Console) writes_names args
           two_resources TaskScheduler.Scheduler_ctor) in
  ((forall v : MoveSemantics.ResourceManager,
       MoveSemantics.moved_from (snd (move_construct v))) /\
   In (xvalue "b") args /\ MoveSemantics.moved_from (f' "b")) /\
  (~ In (xvalue "a") args /\ f' "a" = two_resources "a") /\
  ((forall v : Z, snd (move_construct v) = v) /\
   snd (TaskScheduler.schedule_task (World := Console) ignores
          [xvalue "n"] forty_two TaskScheduler.Scheduler_ctor) "n" =
   forty_two "n").
Proof.
  intros args f'.
  assert (Hb : In (xvalue "b") args) by (right; left; reflexivity).
  assert (Hna : ~ In (xvalue "a") args).
  { intros [Hin | [Hin | []]]; discriminate Hin. }
  assert (Hint : forall v : Z, snd (move_construct v) = v)
    by reflexivity.
  split; [|split].
  - split; [exact move_ctor_leaves_moved_from |]. split; [exact Hb |].
    exact (proj1 (C1_ownership_mode_fidelity Console _ _ _ _ writes_names
                    args two_resources TaskScheduler.Scheduler_ctor "b"
                    MoveSemantics.moved_from)
             move_ctor_leaves_moved_from Hb).
  - split; [exact Hna |].
    exact (proj1 (proj2 (C1_ownership_mode_fidelity Console _ _ _ _
                           writes_names args two_resources
                           TaskScheduler.Scheduler_ctor "a"
                           MoveSemantics.moved_from))
             Hna).
  - split; [exact Hint |].
    exact (proj2 (proj2 (C1_ownership_mode_fidelity Console _ _ _ _ ignores
                           [xvalue "n"] forty_two
                           TaskScheduler.Scheduler_ctor "n"
                           (fun _ => True)))
             Hint).
Defined.

(** C1 as the specification has it fails, in three ways.  An [int]
    passed under [std::move] keeps its value, 42.  A [const] resource
    manager passed under [std::move] is copied and keeps what it holds.
    A resource manager that is passed by name and, in the same call,
    under [std::move] is not left unchanged. *)
Lemma C1_counterexample :
  snd (TaskScheduler.schedule_task (World := Console) ignores
         [xvalue "n"] forty_two TaskScheduler.Scheduler_ctor) "n" = 42%Z /\
  (let f' := snd (TaskScheduler.schedule_task (World := Console)
                    writes_names [const_xvalue "a"] two_resources
                    TaskScheduler.Scheduler_ctor) in
   f' "a" = MoveSemantics.ctor 3 "first" /\
   ~ MoveSemantics.moved_from (f' "a")) /\
  (let args := [lvalue "a"; xvalue "a"] in
   let f' := snd (TaskScheduler.schedule_task (World := Console)
                    writes_names args two_resources
                    TaskScheduler.Scheduler_ctor) in
   In (lvalue "a") args /\ f' "a" <> two_resources "a").
Proof.
  split; [reflexivity |]. split.
  - split; [reflexivity |]. intros (Hdata & _). discriminate Hdata.
  - split; [now left |]. intros Heq. discriminate Heq.
Qed.

(** C3 on the specification's example, with [std::sort] as the library
    has it. *)
Lemma C3_witness :
  StdSort.contract (@Libstdcxx.sort (ModernAsyncDesign.Task Console)) /\
  let r := ModernAsyncDesign.execute_all Libstdcxx.sort
             priorities_1_5_3 [] in
  let order := ModernAsyncDesign.tasks (object_after r) in
  Permutation (ModernAsyncDesign.tasks priorities_1_5_3) order /\
  StronglySorted
    (fun a b =>
       (ModernAsyncDesign.priority a >= ModernAsyncDesign.priority b)%Z)
    order /\
  completion_of r = in_order (map ModernAsyncDesign.execute order) [].
Proof.
  split.
  - apply LibstdcxxFacts.sort_contract.
  - apply (C3_priority_descending Console Libstdcxx.sort
             priorities_1_5_3 []).
    apply LibstdcxxFacts.sort_contract.
Defined.

(** C3 as the specification has it fails: seventeen tasks of priority 1,
    submitted in the order A, B, ..., Q, are run by [execute_all], with
    [std::sort] as the library has it, in the order I, Q, P, ..., J, A,
    H, ..., B.  (The sort swaps the first element with the middle one
    to have a pivot, and then swaps the elements around the pivot
    pairwise, since none of them is before or after it.) *)
Lemma C3_counterexample :
  map ModernAsyncDesign.getName (ModernAsyncDesign.tasks seventeen_equal) =
    ["A"; "B"; "C"; "D"; "E"; "F"; "G"; "H"; "I"; "J"; "K"; "L"; "M"; "N";
     "O"; "P"; "Q"] /\
  map ModernAsyncDesign.getPriority (ModernAsyncDesign.tasks seventeen_equal) =
    repeat 1%Z 17 /\
  completion_of
    (ModernAsyncDesign.execute_all Libstdcxx.sort seventeen_equal []) =
  (["I"; "Q"; "P"; "O"; "N"; "M"; "L"; "K"; "J"; "A"; "H"; "G"; "F"; "E";
    "D"; "C"; "B"], None).
Proof.
  split; [reflexivity |]. split; [reflexivity |].
  vm_compute. reflexivity.
Qed.

(** C4 on a scheduler with anonymous and named tasks. *)
Lemma C4_witness :
  snd (TaskScheduler.execute_all mixed_batch []) = None /\
  let s' := object_after (TaskScheduler.execute_all mixed_batch []) in
  (TaskScheduler.tasks s' = [] /\
   forall w',
     completion_of (TaskScheduler.execute_all s' w') =
     in_order (map (fun entry => invoke (snd entry))
                 (TaskScheduler.namedTasks mixed_batch)) w') /\
  (forall std_sort (p : ModernAsyncDesign.TaskScheduler Console)
          (v v' : Console),
     StdSort.contract std_sort ->
     let p' := object_after (ModernAsyncDesign.execute_all std_sort p v) in
     Permutation (ModernAsyncDesign.tasks p) (ModernAsyncDesign.tasks p') /\
     StdSort.sorted ModernAsyncDesign.higher_priority
       (ModernAsyncDesign.tasks p') /\
     exists again,
       Permutation (ModernAsyncDesign.tasks p) again /\
       StdSort.sorted ModernAsyncDesign.higher_priority again /\
       completion_of (ModernAsyncDesign.execute_all std_sort p' v') =
       in_order (map ModernAsyncDesign.execute again) v').
Proof.
  split.
  - reflexivity.
  - apply (C4_execute_all_clears_vector Console mixed_batch []).
    reflexivity.
Defined.

(** C4 as the specification has it fails for the scheduler that sorts by
    priority: [execute_all] returns, the vector still holds the tasks, and
    a second [execute_all] runs them again. *)
Lemma C4_counterexample :
  let first := ModernAsyncDesign.execute_all Libstdcxx.sort
                 priorities_1_5_3 [] in
  snd first = None /\
  List.length (ModernAsyncDesign.tasks (object_after first)) = 3 /\
  completion_of
    (ModernAsyncDesign.execute_all Libstdcxx.sort
       (object_after first) (fst (completion_of first))) =
  (["B"; "C"; "A"; "B"; "C"; "A"], None).
Proof. repeat split. Qed.

(** C5 on a scheduler with anonymous and named tasks. *)
Lemma C5_witness :
  TaskScheduler.reachable mixed_batch /\
  completion_of (TaskScheduler.execute_all mixed_batch []) =
  and_then (in_order (map invoke (TaskScheduler.tasks mixed_batch)))
    (in_order (map (fun entry => invoke (snd entry))
                 (TaskScheduler.namedTasks mixed_batch))) [] /\
  StronglySorted (fun a b => String.compare a b = Lt)
    (map fst (TaskScheduler.namedTasks mixed_batch)).
Proof.
  split.
  - exact mixed_batch_reachable.
  - exact (C5_anonymous_then_named_by_key Console mixed_batch []
             mixed_batch_reachable).
Defined.

(** C6 on a scheduler that holds other named tasks. *)
Lemma C6_witness :
  TaskScheduler.reachable mixed_batch /\
  let T1 : TaskScheduler.Task Console := Some (writes "T1") in
  let T2 : TaskScheduler.Task Console := Some (writes "T2") in
  let s2 := TaskScheduler.schedule_named_task "x" T2
              (TaskScheduler.schedule_named_task "x" T1 mixed_batch) in
  StdMap.find "x" (TaskScheduler.namedTasks s2) = Some T2 /\
  filter (fun entry => String.eqb (fst entry) "x")
    (TaskScheduler.namedTasks s2) = [("x", T2)] /\
  s2 = TaskScheduler.schedule_named_task "x" T2 mixed_batch /\
  exists before after,
    TaskScheduler.namedTasks s2 = before ++ ("x", T2) :: after /\
    (TaskScheduler.namedTasks mixed_batch = before ++ after \/
     exists old,
       TaskScheduler.namedTasks mixed_batch = before ++ ("x", old) :: after) /\
    forall w,
      completion_of (TaskScheduler.execute_all s2 w) =
      and_then (in_order (map invoke (TaskScheduler.tasks mixed_batch)))
        (and_then (in_order (map (fun entry => invoke (snd entry)) before))
           (and_then (invoke T2)
              (in_order (map (fun entry => invoke (snd entry)) after)))) w.
Proof.
  split.
  - exact mixed_batch_reachable.
  - exact (C6_named_overwrite Console mixed_batch "x"
             (Some (writes "T1")) (Some (writes "T2")) mixed_batch_reachable).
Defined.

(** T2 is run, behind the named tasks with smaller keys, and T1 is not. *)
Example named_overwrite_run :
  completion_of
    (TaskScheduler.execute_all
       (TaskScheduler.schedule_named_task "x" (Some (writes "T2"))
          (TaskScheduler.schedule_named_task "x" (Some (writes "T1"))
             mixed_batch)) []) =
  (["first"; "second"; "named alpha"; "named beta"; "T2"], None).
Proof. reflexivity. Qed.

(** C8 on the batch A, B, C in which B throws, and on a batch in which no
    task throws. *)
Lemma C8_witness :
  let A : TaskScheduler.Task Console := Some (writes "A") in
  let B : TaskScheduler.Task Console :=
    Some (writes_and_throws "B" "B failed") in
  let C : TaskScheduler.Task Console := Some (writes "C") in
  (TaskScheduler.tasks batch_B_fails ++
     map snd (TaskScheduler.namedTasks batch_B_fails) = [A] ++ B :: [C] /\
   in_order (map invoke [A]) [] = (["A"], None) /\
   invoke B ["A"] = (["A"; "B"], Some (runtime_error "B failed")) /\
   completion_of (TaskScheduler.execute_all batch_B_fails []) =
   (["A"; "B"], Some (runtime_error "B failed"))) /\
  ((forall task v,
      In task (TaskScheduler.tasks mixed_batch ++
               map snd (TaskScheduler.namedTasks mixed_batch)) ->
      snd (invoke task v) = None) /\
   completion_of (TaskScheduler.execute_all mixed_batch []) =
   (["first"; "second"; "named alpha"; "named beta"], None)).
Proof.
  intros A B C.
  assert (Hbatch : TaskScheduler.tasks batch_B_fails ++
                   map snd (TaskScheduler.namedTasks batch_B_fails) =
                   [A] ++ B :: [C])
    by reflexivity.
  assert (Hbefore : in_order (map invoke [A]) [] = (["A"], None))
    by reflexivity.
  assert (Hfail : invoke B ["A"] =
                  (["A"; "B"], Some (runtime_error "B failed")))
    by reflexivity.
  assert (Hnone : forall task v,
             In task (TaskScheduler.tasks mixed_batch ++
                      map snd (TaskScheduler.namedTasks mixed_batch)) ->
             snd (invoke task v) = None).
  { intros task v [<- | [<- | [<- | [<- | []]]]]; reflexivity. }
  split.
  - split; [exact Hbatch |]. split; [exact Hbefore |]. split; [exact Hfail |].
    exact (proj1 (C8_exception_ends_the_batch Console batch_B_fails [A] [C] B
                    [] ["A"] ["A"; "B"] (runtime_error "B failed"))
             Hbatch Hbefore Hfail).
  - split; [exact Hnone |].
    exact (proj2 (C8_exception_ends_the_batch Console mixed_batch [] [] None
                    [] [] [] bad_function_call)
             Hnone).
Defined.

(** C8 as the specification has it fails: in the batch A, B, C in which B
    throws, C is not run, and what comes out of [execute_all] is the
    exception of B, not a list of errors. *)
Lemma C8_counterexample :
  map (fun t => fst (invoke t []))
    (TaskScheduler.tasks batch_B_fails) = [["A"]; ["B"]; ["C"]] /\
  completion_of (TaskScheduler.execute_all batch_B_fails []) =
  (["A"; "B"], Some (runtime_error "B failed")) /\
  ~ In "C" (fst (completion_of (TaskScheduler.execute_all batch_B_fails []))).
Proof.
  split; [reflexivity |]. split; [reflexivity |].
  simpl. intros [H | [H | []]]; discriminate H.
Qed.

(** C9 as the specification has it fails: the second [execute] of a task
    calls its callable again and ends without an exception. *)
Lemma C9_counterexample :
  let t := ModernAsyncDesign.Task_ctor "once" 0 (Some (writes "ran")) in
  ModernAsyncDesign.execute t [] = (["ran"], None) /\
  ModernAsyncDesign.execute t ["ran"] = (["ran"; "ran"], None).
Proof. split; reflexivity. Qed.

(* ================================================================== *)
(** * Further properties of the code *)
(* ================================================================== *)

(** ** ResourceManager: constructors and assignments *)

Lemma std_copy_all (src : list Z) (n : nat) :
  List.length src = n -> MoveSemantics.std_copy src n (repeat 0%Z n) = src.
Proof.
  intros Hlen. unfold MoveSemantics.std_copy.
  rewrite firstn_all2 by lia.
  rewrite skipn_all2 by (rewrite repeat_length; lia).
  apply app_nil_r.
Qed.

(** X1.  Every constructor and both assignments keep the manager
    consistent: its pointer is null and its size 0, or its array holds
    exactly [size] elements.  Copy assignment from a consistent manager
    never reads through a null pointer. *)
Theorem ResourceManager_stays_consistent :
  forall (s : nat) (n : string) (this r : MoveSemantics.ResourceManager),
    MoveSemantics.consistent MoveSemantics.default_ctor /\
    MoveSemantics.consistent (MoveSemantics.ctor s n) /\
    (MoveSemantics.consistent r ->
     MoveSemantics.consistent (MoveSemantics.copy_ctor r) /\
     MoveSemantics.consistent (fst (MoveSemantics.move_ctor r)) /\
     MoveSemantics.consistent (snd (MoveSemantics.move_ctor r)) /\
     MoveSemantics.consistent (fst (MoveSemantics.move_assign_other this r)) /\
     MoveSemantics.consistent (snd (MoveSemantics.move_assign_other this r)) /\
     exists assigned,
       MoveSemantics.copy_assign_other this r = Some assigned /\
       MoveSemantics.consistent assigned).
Proof.
  intros s n this r.
  split; [reflexivity |]. split.
  - unfold MoveSemantics.consistent; simpl.
    now rewrite length_map, length_seq.
  - destruct r as [[array|] size name];
      unfold MoveSemantics.consistent; simpl; intros Hr.
    + repeat split; try assumption.
      * destruct (0 <? size)%nat eqn:Hpos; simpl.
        -- now rewrite std_copy_all.
        -- apply Nat.ltb_ge in Hpos. lia.
      * unfold MoveSemantics.copy_assign_other; simpl.
        destruct (0 <? size)%nat eqn:Hpos; simpl.
        -- eexists. split; [reflexivity |]. simpl. now rewrite std_copy_all.
        -- eexists. split; [reflexivity |]. simpl.
           apply Nat.ltb_ge in Hpos. lia.
    + subst size. repeat split.
      eexists. split; reflexivity.
Qed.

(** X2.  Copies are deep and equal.  The copy constructor and the copy
    assignment give the new object an array with the elements of the
    source and the size of the source; only the name differs, by the
    suffix.  A source of size 0 gives a null pointer, also when the source
    holds an allocated array of no elements. *)
Theorem ResourceManager_copy_is_equal :
  forall (this r : MoveSemantics.ResourceManager),
    MoveSemantics.consistent r ->
    let array := if (MoveSemantics.size r =? 0)%nat then None
                 else MoveSemantics.data r in
    MoveSemantics.copy_ctor r =
      {| MoveSemantics.data := array;
         MoveSemantics.size := MoveSemantics.size r;
         MoveSemantics.name := MoveSemantics.name r ++ "_copy" |} /\
    MoveSemantics.copy_assign_other this r =
      Some {| MoveSemantics.data := array;
              MoveSemantics.size := MoveSemantics.size r;
              MoveSemantics.name := MoveSemantics.name r ++ "_assigned" |}.
Proof.
  intros this [[array|] size name];
    unfold MoveSemantics.consistent, MoveSemantics.copy_ctor,
      MoveSemantics.copy_assign_other; simpl; intros Hr.
  - destruct size as [|size]; simpl.
    + split; reflexivity.
    + change (0%Z :: repeat 0%Z size) with (repeat 0%Z (S size)).
      rewrite std_copy_all by exact Hr. split; reflexivity.
  - subst size. split; reflexivity.
Qed.

(** X3.  Moving there and back.  After [y = std::move(x); x = std::move(y);]
    on two different variables, [x] holds what it held, [y] is in the
    moved-from state, and no other variable has changed.  Moving a variable
    into itself changes nothing. *)
Theorem ResourceManager_move_round_trip :
  forall (x y : string) (f : string -> MoveSemantics.ResourceManager),
    x <> y ->
    let f' := MoveSemantics.move_assign_at x y
                (MoveSemantics.move_assign_at y x f) in
    f' x = f x /\
    MoveSemantics.moved_from (f' y) /\
    (forall z, z <> x -> z <> y -> f' z = f z) /\
    MoveSemantics.move_assign_at x x f = f.
Proof.
  intros x y f Hxy f'. subst f'.
  unfold MoveSemantics.move_assign_at.
  assert (Hyx : String.eqb y x = false) by (apply String.eqb_neq; congruence).
  assert (Hxy' : String.eqb x y = false) by now apply String.eqb_neq.
  repeat (rewrite ?Hyx, ?Hxy', ?String.eqb_refl; simpl).
  repeat split.
  - now destruct (f x).
  - intros z Hzx Hzy.
    apply String.eqb_neq in Hzx, Hzy. now rewrite Hzx, Hzy.
Qed.

(** ** schedule_task: what the deferred call is given *)

Lemma handed_over_agree (f g : frame MoveSemantics.ResourceManager)
    (args : list (argument MoveSemantics.ResourceManager)) :
  (forall x, In x (names_of args) -> g x = f x) ->
  map (handed_over g) args = map (handed_over f) args.
Proof.
  induction args as [|a args IH]; intros Hagree; simpl.
  - reflexivity.
  - f_equal.
    + destruct a as [x|x|x|v]; simpl; try reflexivity;
        rewrite Hagree; try reflexivity; simpl; now left.
    + apply IH. intros x Hx. apply Hagree.
      unfold names_of; simpl. apply in_or_app. now right.
Qed.

(** A variable that the pack does not name keeps its value. *)
Lemma make_tuple_keeps_unnamed {T : Type} `{Constructible T}
    (args : list (argument T)) (f : frame T) (x : string) :
  ~ In x (names_of args) -> snd (make_tuple args f) x = f x.
Proof.
  intros Hnot. apply make_tuple_keeps. intros Hin. apply Hnot.
  unfold names_of. apply in_flat_map. exists (xvalue x).
  split; [exact Hin | now left].
Qed.

Lemma make_tuple_hands_over
    (args : list (argument MoveSemantics.ResourceManager)) f :
  NoDup (names_of args) ->
  fst (make_tuple args f) = map (handed_over f) args.
Proof.
  induction args as [|a args IH]; intros Hnames.
  - reflexivity.
  - assert (Hrest : NoDup (names_of args)).
    { unfold names_of in Hnames; simpl in Hnames.
      exact (NoDup_app_remove_l _ _ Hnames). }
    rewrite make_tuple_cons. simpl. rewrite (IH Hrest). f_equal.
    unfold names_of in Hnames.
    destruct a as [x|x|x|v]; simpl in Hnames; simpl;
      try (rewrite make_tuple_keeps_unnamed by now inversion Hnames).
    + reflexivity.
    + now destruct (f x).
    + reflexivity.
    + now destruct v.
Qed.

(** X4.  What the deferred call is given.  When no variable is named
    twice in the call of [schedule_task], the task that is scheduled calls
    [func] with, position by position, a copy of each variable passed by
    name, the very contents of each variable passed under [std::move] (a
    copy when the variable is [const]), and each temporary as it was. *)
Theorem schedule_task_hands_over :
  forall (World : Type)
         (func : list MoveSemantics.ResourceManager -> body World)
         (args : list (argument MoveSemantics.ResourceManager))
         (f : frame MoveSemantics.ResourceManager)
         (s : TaskScheduler.Scheduler World),
    NoDup (names_of args) ->
    exists task,
      TaskScheduler.tasks (fst (TaskScheduler.schedule_task func args f s)) =
      TaskScheduler.tasks s ++ [task] /\
      invoke task = func (map (handed_over f) args).
Proof.
  intros World func args f s Hnames.
  eexists. split; [apply schedule_task_tasks |].
  change (func (captured args f) = func (map (handed_over f) args)).
  f_equal. unfold captured.
  rewrite make_tuple_hands_over by exact Hnames.
  rewrite map_map. apply map_ext.
  intros a. simpl. now destruct (handed_over f a).
Qed.

(** ** The FIFO scheduler: counts, failures, independence of names *)

Lemma find_above {V : Type} (k : string) (m : StdMap.t V) :
  Forall (StdMap.key_lt k) (StdMap.keys m) -> StdMap.find k m = None.
Proof.
  induction m as [|[k' v'] m IH]; simpl; intros Hm.
  - reflexivity.
  - inversion Hm as [|? ? Hk' Hm']; subst.
    rewrite String.eqb_sym, (StdMapFacts.key_lt_neq _ _ Hk').
    now apply IH.
Qed.

Lemma size_assign {V : Type} (k : string) (v : V) (m : StdMap.t V) :
  StdMap.ordered m ->
  StdMap.size (StdMap.assign k v m) =
  StdMap.size m + match StdMap.find k m with Some _ => 0 | None => 1 end.
Proof.
  unfold StdMap.ordered, StdMap.size.
  induction m as [|[k' v'] m IH]; simpl; intros Hm.
  - reflexivity.
  - inversion Hm as [|? ? Hm' Hk']; subst.
    destruct (String.compare k k') eqn:Hcmp; simpl.
    + apply String.compare_eq_iff in Hcmp. subst k'.
      rewrite String.eqb_refl. lia.
    + rewrite String.eqb_sym, (StdMapFacts.key_lt_neq _ _ Hcmp).
      rewrite find_above; [lia |].
      eapply Forall_impl; [|exact Hk'].
      intros a Ha. now apply StdMapFacts.key_lt_trans with k'.
    + rewrite (StdMapFacts.key_lt_neq _ _ (StdMapFacts.compare_Gt _ _ Hcmp)).
      rewrite IH by exact Hm'. lia.
Qed.

Lemma compare_Lt_flip (a b : string) :
  String.compare a b = Lt -> String.compare b a = Gt.
Proof. intros Hab. now rewrite String.compare_antisym, Hab. Qed.

Lemma compare_Gt_flip (a b : string) :
  String.compare a b = Gt -> String.compare b a = Lt.
Proof. intros Hab. now rewrite String.compare_antisym, Hab. Qed.

Lemma compare_neq (a b : string) : a <> b -> String.compare a b <> Eq.
Proof. intros Hne Heq. now apply String.compare_eq_iff in Heq. Qed.

(** Assignments to two different keys can be swapped. *)
Lemma assign_comm {V : Type} (k1 k2 : string) (v1 v2 : V) (m : StdMap.t V) :
  k1 <> k2 ->
  StdMap.assign k1 v1 (StdMap.assign k2 v2 m) =
  StdMap.assign k2 v2 (StdMap.assign k1 v1 m).
Proof.
  intros Hne.
  pose proof (compare_neq k1 k2 Hne) as H12.
  induction m as [|[k v] m IH]; simpl.
  - destruct (String.compare k1 k2) eqn:C12; [contradiction | |].
    + now rewrite (compare_Lt_flip _ _ C12).
    + now rewrite (compare_Gt_flip _ _ C12).
  - destruct (String.compare k1 k) eqn:C1, (String.compare k2 k) eqn:C2;
      simpl.
    + apply String.compare_eq_iff in C1, C2. congruence.
    + apply String.compare_eq_iff in C1. subst k.
      rewrite (compare_Lt_flip _ _ C2). simpl.
      now rewrite StdMapFacts.compare_refl, C2.
    + now rewrite C1, C2.
    + apply String.compare_eq_iff in C2. subst k.
      rewrite C1, (compare_Lt_flip _ _ C1). simpl.
      now rewrite StdMapFacts.compare_refl.
    + destruct (String.compare k1 k2) eqn:C12; [contradiction | |].
      * rewrite (compare_Lt_flip _ _ C12). simpl. now rewrite C2.
      * rewrite (compare_Gt_flip _ _ C12). simpl. now rewrite C1.
    + rewrite C1.
      assert (C21 : String.compare k2 k1 = Gt).
      { apply compare_Lt_flip.
        apply StdMapFacts.key_lt_trans with k; [exact C1 |].
        now apply StdMapFacts.compare_Gt. }
      rewrite C21. simpl. now rewrite C2.
    + now rewrite C1, C2.
    + rewrite C2.
      assert (C12 : String.compare k1 k2 = Gt).
      { apply compare_Lt_flip.
        apply StdMapFacts.key_lt_trans with k; [exact C2 |].
        now apply StdMapFacts.compare_Gt. }
      rewrite C12. simpl. now rewrite C1.
    + now rewrite C1, C2, IH.
Qed.

Lemma length_app_one {A : Type} (l : list A) (x : A) :
  List.length (l ++ [x]) = S (List.length l).
Proof. rewrite length_app. simpl. lia. Qed.

(** A call leaves a function that holds an object holding one. *)
Lemma vector_loop_keeps_targets {World : Type}
    (ts : list (option (TaskScheduler.Lambda World))) (w : World) :
  Forall (fun t => exists c, t = Some c) ts ->
  Forall (fun t => exists c, t = Some c)
    (fst (for_each_ref TaskScheduler.call_function ts w)).
Proof.
  revert w; induction ts as [|t ts IH]; intros w Hts; cbn [for_each_ref].
  - constructor.
  - inversion Hts as [|? ? [c ->] Hrest]; subst.
    assert (Hcalled : exists c',
               fst (TaskScheduler.call_function (Some c) w) = Some c')
      by (now eexists).
    destruct (TaskScheduler.call_function (Some c) w) as [t' [w' [e|]]];
      cbn [fst] in Hcalled.
    + constructor; [exact Hcalled | exact Hrest].
    + specialize (IH w' Hrest).
      destruct (for_each_ref TaskScheduler.call_function ts w');
        cbn [fst] in *.
      constructor; [exact Hcalled | exact IH].
Qed.

Lemma reachable_vector_holds {World : Type}
    (s : TaskScheduler.Scheduler World) :
  TaskScheduler.reachable s ->
  Forall (fun t => exists c, t = Some c) (TaskScheduler.vector s).
Proof.
  intros Hs.
  induction Hs as [|T C Func F func args f s _ IH|name task s _ IH|s w _ IH].
  - constructor.
  - rewrite schedule_task_vector. apply Forall_app. split; [exact IH |].
    constructor; [now eexists | constructor].
  - exact IH.
  - pose proof (vector_loop_keeps_targets (TaskScheduler.vector s) w IH)
      as Hkept.
    unfold TaskScheduler.execute_all, object_after.
    destruct (for_each_ref TaskScheduler.call_function
                (TaskScheduler.vector s) w) as [called [w1 [e|]]]; simpl in *.
    + exact Hkept.
    + destruct (for_each (fun pair => invoke (snd pair))
                  (TaskScheduler.namedTasks s) w1); simpl. constructor.
Qed.

(** X5.  [schedule_task] never stores an empty function: in every
    scheduler a program can hold, each task of the vector holds a target.
    (An empty [std::function] can only stand in the map, where
    [schedule_named_task] puts what it is given.) *)
Theorem anonymous_tasks_hold_targets :
  forall (World : Type) (s : TaskScheduler.Scheduler World),
    TaskScheduler.reachable s ->
    Forall (fun task => exists target, task = Some target)
      (TaskScheduler.tasks s).
Proof.
  intros World s Hs. unfold TaskScheduler.tasks.
  apply Forall_map.
  eapply Forall_impl; [|exact (reachable_vector_holds s Hs)].
  intros t [c ->]. simpl. now eexists.
Qed.

(** X6.  What [getTaskCount] counts.  [schedule_task] raises the count by
    one.  [schedule_named_task] raises it by one when the name is new and
    leaves it when the name is taken.  After an [execute_all] that returns
    the count is the number of named tasks. *)
Theorem getTaskCount_accounting :
  forall (World T : Type) (CT : Constructible T)
         (func : list T -> body World) (args : list (argument T))
         (f : frame T) (name : string) (task : TaskScheduler.Task World)
         (s : TaskScheduler.Scheduler World) (w : World),
    TaskScheduler.reachable s ->
    TaskScheduler.getTaskCount (fst (TaskScheduler.schedule_task func args f s))
      = S (TaskScheduler.getTaskCount s) /\
    TaskScheduler.getTaskCount (TaskScheduler.schedule_named_task name task s)
      = TaskScheduler.getTaskCount s +
        match StdMap.find name (TaskScheduler.namedTasks s) with
        | Some _ => 0
        | None => 1
        end /\
    (snd (TaskScheduler.execute_all s w) = None ->
     TaskScheduler.getTaskCount (object_after (TaskScheduler.execute_all s w))
       = StdMap.size (TaskScheduler.namedTasks s)).
Proof.
  intros World T CT func args f name task s w Hs.
  unfold TaskScheduler.getTaskCount. repeat split.
  - rewrite schedule_task_tasks, schedule_task_namedTasks, length_app_one.
    reflexivity.
  - simpl. rewrite size_assign by now apply reachable_ordered.
    unfold TaskScheduler.tasks. simpl. lia.
  - intros Hret. rewrite execute_all_namedTasks.
    unfold TaskScheduler.tasks. now rewrite execute_all_returns.
Qed.

(** X7.  Named tasks under different names do not depend on the order in
    which they are given: the two calls of [schedule_named_task] can be
    swapped, and a call of [schedule_task] can be moved across a call of
    [schedule_named_task]. *)
Theorem named_submissions_commute :
  forall (World T : Type) (CT : Constructible T)
         (n1 n2 : string) (t1 t2 : TaskScheduler.Task World)
         (func : list T -> body World) (args : list (argument T))
         (f : frame T) (s : TaskScheduler.Scheduler World),
    n1 <> n2 ->
    TaskScheduler.schedule_named_task n1 t1
      (TaskScheduler.schedule_named_task n2 t2 s) =
    TaskScheduler.schedule_named_task n2 t2
      (TaskScheduler.schedule_named_task n1 t1 s) /\
    fst (TaskScheduler.schedule_task func args f
           (TaskScheduler.schedule_named_task n1 t1 s)) =
    TaskScheduler.schedule_named_task n1 t1
      (fst (TaskScheduler.schedule_task func args f s)).
Proof.
  intros World T CT n1 n2 t1 t2 func args f s Hne. split.
  - unfold TaskScheduler.schedule_named_task; simpl.
    now rewrite assign_comm.
  - unfold TaskScheduler.schedule_task, TaskScheduler.schedule_named_task.
    now destruct (make_tuple args f).
Qed.

(** A closure whose callable only reads is left by a call as it was. *)
Lemma reading_closure_stays {World T : Type} `{Constructible T}
    (func : list T -> body World) (args : list (argument T)) (f : frame T)
    (w : World) :
  fst (TaskScheduler.Lambda_call
         (TaskScheduler.closure func (fst (make_tuple args f))
            (List.length args)) w) =
  TaskScheduler.closure func (fst (make_tuple args f)) (List.length args).
Proof.
  unfold TaskScheduler.Lambda_call, TaskScheduler.closure.
  cbn [TaskScheduler.func TaskScheduler.args TaskScheduler.sizeof_Args
       TaskScheduler.Func_Callable fst].
  set (elements := map (fun v => fst (move_construct v))
                     (fst (make_tuple args f))).
  assert (Hlen : List.length args = List.length elements).
  { subst elements. now rewrite length_map, make_tuple_length. }
  rewrite Hlen, call_with_tuple_all. reflexivity.
Qed.



(** ** The scheduler that sorts by priority: what std::sort cannot change *)


Lemma priority_execute_all_completion {World : Type} std_sort
    (s : ModernAsyncDesign.TaskScheduler World) (w : World) :
  completion_of (ModernAsyncDesign.execute_all std_sort s w) =
  for_each ModernAsyncDesign.execute
    (std_sort ModernAsyncDesign.higher_priority (ModernAsyncDesign.tasks s)) w.
Proof.
  unfold ModernAsyncDesign.execute_all; simpl. apply completion_of_pair.
Qed.

(** Two sorted lists with the same elements are equal when the order
    decides between any two different elements. *)
Lemma sorted_permutation_unique {A : Type} (R : A -> A -> Prop)
    (l1 l2 : list A) :
  (forall a b, In a l1 -> In b l1 -> R a b -> R b a -> a = b) ->
  StronglySorted R l1 -> StronglySorted R l2 -> Permutation l1 l2 ->
  l1 = l2.
Proof.
  revert l2; induction l1 as [|a l1 IH]; intros l2 Hanti H1 H2 Hperm.
  - apply Permutation_nil in Hperm. now subst.
  - destruct l2 as [|b l2].
    + symmetry in Hperm. now apply Permutation_nil in Hperm.
    + inversion H1 as [|? ? H1' Ha]; subst.
      inversion H2 as [|? ? H2' Hb]; subst.
      assert (Hab : a = b).
      { assert (Hin_a : In a (b :: l2))
          by (apply Permutation_in with (a :: l1); [exact Hperm | now left]).
        assert (Hin_b : In b (a :: l1))
          by (apply Permutation_in with (b :: l2);
              [now symmetry | now left]).
        destruct Hin_a as [-> | Hin_a]; [reflexivity |].
        destruct Hin_b as [<- | Hin_b]; [reflexivity |].
        apply Hanti; [now left | now right | |].
        - rewrite Forall_forall in Ha. now apply Ha.
        - rewrite Forall_forall in Hb. now apply Hb. }
      subst b. f_equal.
      apply IH; try assumption.
      * intros x y Hx Hy. apply Hanti; now right.
      * now apply Permutation_cons_inv with a.
Qed.

Lemma NoDup_map_injective {A B : Type} (g : A -> B) (l : list A) :
  NoDup (map g l) ->
  forall a b, In a l -> In b l -> g a = g b -> a = b.
Proof.
  induction l as [|x l IH]; simpl; intros Hnd a b Ha Hb Hg.
  - contradiction.
  - inversion Hnd as [|? ? Hx Hl]; subst.
    destruct Ha as [<- | Ha], Hb as [<- | Hb].
    + reflexivity.
    + exfalso. apply Hx. rewrite Hg. now apply in_map.
    + exfalso. apply Hx. rewrite <- Hg. now apply in_map.
    + now apply IH.
Qed.

(** X9.  When the tasks have pairwise different priorities, the order in
    which [execute_all] leaves and runs them is the same for every
    [std::sort] within the promises of the standard. *)
Theorem distinct_priorities_fix_the_order :
  forall (World : Type)
         (sort1 sort2 : (ModernAsyncDesign.Task World ->
                         ModernAsyncDesign.Task World -> bool) ->
                        list (ModernAsyncDesign.Task World) ->
                        list (ModernAsyncDesign.Task World))
         (s : ModernAsyncDesign.TaskScheduler World) (w : World),
    StdSort.contract sort1 ->
    StdSort.contract sort2 ->
    NoDup (map ModernAsyncDesign.getPriority (ModernAsyncDesign.tasks s)) ->
    ModernAsyncDesign.execute_all sort1 s w =
    ModernAsyncDesign.execute_all sort2 s w.
Proof.
  intros World sort1 sort2 s w H1 H2 Hnd.
  destruct (H1 ModernAsyncDesign.higher_priority (ModernAsyncDesign.tasks s)
              higher_priority_order) as [Hp1 Hs1].
  destruct (H2 ModernAsyncDesign.higher_priority (ModernAsyncDesign.tasks s)
              higher_priority_order) as [Hp2 Hs2].
  assert (Heq : sort1 ModernAsyncDesign.higher_priority
                  (ModernAsyncDesign.tasks s) =
                sort2 ModernAsyncDesign.higher_priority
                  (ModernAsyncDesign.tasks s)).
  { apply sorted_permutation_unique with
      (R := fun a b => (ModernAsyncDesign.priority a >=
                        ModernAsyncDesign.priority b)%Z).
    - intros a b Ha Hb Hab Hba.
      apply (NoDup_map_injective ModernAsyncDesign.getPriority
               (ModernAsyncDesign.tasks s) Hnd).
      + apply Permutation_in with (2 := Ha). now symmetry.
      + apply Permutation_in with (2 := Hb). now symmetry.
      + unfold ModernAsyncDesign.getPriority. lia.
    - now apply sorted_by_priority.
    - now apply sorted_by_priority.
    - now rewrite <- Hp1. }
  unfold ModernAsyncDesign.execute_all. now rewrite Heq.
Qed.

Lemma for_each_skips {World A : Type} (call : A -> body World)
    (present : A -> bool) (xs : list A) (w : World) :
  (forall x v, present x = false -> call x v = (v, None)) ->
  for_each call xs w = for_each call (filter present xs) w.
Proof.
  intros Hskip. revert w; induction xs as [|x xs IH]; intros w; simpl.
  - reflexivity.
  - destruct (present x) eqn:Hx; simpl.
    + destruct (call x w) as [w' [e|]]; [reflexivity | apply IH].
    + rewrite (Hskip x w Hx). apply IH.
Qed.

(** X10.  Tasks without a callable are passed over.  [execute_all] does
    to the world what it does when the tasks whose function is empty are
    taken out of the sorted vector: such a task neither acts nor throws. *)
Theorem empty_tasks_are_passed_over :
  forall (World : Type)
         (std_sort : (ModernAsyncDesign.Task World ->
                      ModernAsyncDesign.Task World -> bool) ->
                     list (ModernAsyncDesign.Task World) ->
                     list (ModernAsyncDesign.Task World))
         (s : ModernAsyncDesign.TaskScheduler World) (w : World),
    completion_of (ModernAsyncDesign.execute_all std_sort s w) =
    for_each ModernAsyncDesign.execute
      (filter (fun t => match ModernAsyncDesign.task_func t with
                        | Some _ => true
                        | None => false
                        end)
         (std_sort ModernAsyncDesign.higher_priority
            (ModernAsyncDesign.tasks s))) w.
Proof.
  intros World std_sort s w.
  rewrite priority_execute_all_completion.
  apply for_each_skips.
  intros t v Ht. unfold ModernAsyncDesign.execute.
  now destruct (ModernAsyncDesign.task_func t).
Qed.

(** ** The LRU cache *)

Section CacheFacts.
Import CacheSystem.
Context {Value : Type} `{Constructible Value} `{Assignable Value}.
Variable empty_value : Value.

Lemma find_if_Some (key : string) (nodes : list (CacheNode Value))
    before hit after :
  find_if key nodes = Some (before, hit, after) ->
  nodes = before ++ hit :: after /\
  fst hit = key /\
  ~ In key (map fst before).
Proof.
  revert before; induction nodes as [|node nodes IH]; simpl; intros before.
  - discriminate.
  - destruct (String.eqb_spec (fst node) key) as [Heq | Hne].
    + intros [= <- <- <-]. repeat split; auto.
    + destruct (find_if key nodes) as [[[b h] a]|]; [|discriminate].
      intros [= <- <- <-].
      destruct (IH b eq_refl) as (-> & Hkey & Hnot).
      repeat split; auto.
      simpl. intros [Hin | Hin]; [contradiction | now apply Hnot].
Qed.

Lemma find_if_None (key : string) (nodes : list (CacheNode Value)) :
  find_if key nodes = None <-> ~ In key (map fst nodes).
Proof.
  induction nodes as [|node nodes IH]; simpl.
  - split; [intros _ [] | reflexivity].
  - destruct (String.eqb_spec (fst node) key) as [Heq | Hne].
    + split; [discriminate | intros Hnot; exfalso; apply Hnot; now left].
    + destruct (find_if key nodes) as [[[b h] a]|].
      * split; [discriminate |].
        intros Hnot. exfalso.
        assert (Hin : ~ In key (map fst nodes))
          by (intros Hin; apply Hnot; now right).
        apply IH in Hin. discriminate.
      * split; [|reflexivity].
        intros _ [Hin | Hin]; [contradiction |].
        now apply (proj1 IH).
Qed.

Lemma find_if_at (key : string) (before after : list (CacheNode Value)) v :
  ~ In key (map fst before) ->
  find_if key (before ++ (key, v) :: after) = Some (before, (key, v), after).
Proof.
  induction before as [|node before IH]; simpl; intros Hnot.
  - now rewrite String.eqb_refl.
  - destruct (String.eqb_spec (fst node) key) as [Heq | Hne].
    + exfalso. apply Hnot. now left.
    + rewrite IH; [reflexivity |]. intros Hin. apply Hnot. now right.
Qed.

Lemma node_value_cons (key : string) (node : CacheNode Value) nodes :
  node_value key (node :: nodes) =
  if String.eqb (fst node) key then Some (snd node) else node_value key nodes.
Proof.
  unfold node_value; simpl. destruct node as [k v]; simpl.
  destruct (String.eqb k key); [reflexivity |].
  now destruct (find_if key nodes) as [[[b [k' v']] a]|].
Qed.

Lemma node_value_app (key : string) (l1 l2 : list (CacheNode Value)) :
  node_value key (l1 ++ l2) =
  match node_value key l1 with
  | Some v => Some v
  | None => node_value key l2
  end.
Proof.
  induction l1 as [|node l1 IH]; simpl.
  - reflexivity.
  - rewrite !node_value_cons. now destruct (String.eqb (fst node) key).
Qed.

Lemma node_value_absent (key : string) (nodes : list (CacheNode Value)) :
  ~ In key (map fst nodes) -> node_value key nodes = None.
Proof.
  intros Hnot. unfold node_value.
  now rewrite (proj2 (find_if_None key nodes) Hnot).
Qed.


(** Taking the node of a key out and putting a node of this key at the
    back: the keys, and the values of the other keys. *)
Lemma keys_to_back (key : string) (before after : list (CacheNode Value))
    (old new : Value) :
  ~ In key (map fst before) ->
  NoDup (map fst (before ++ (key, old) :: after)) ->
  map fst (before ++ after ++ [(key, new)]) =
  remove string_dec key (map fst (before ++ (key, old) :: after)) ++ [key].
Proof.
  intros Hbefore Hnd.
  assert (Hafter : ~ In key (map fst after)).
  { rewrite map_app in Hnd. simpl in Hnd.
    apply NoDup_remove_2 in Hnd. intros Hin. apply Hnd.
    apply in_or_app. now right. }
  rewrite !map_app. simpl.
  rewrite remove_app, remove_cons.
  rewrite !notin_remove by assumption.
  now rewrite app_assoc.
Qed.

Lemma others_to_back (key other : string)
    (before after : list (CacheNode Value)) (old new : Value) :
  other <> key ->
  node_value other (before ++ after ++ [(key, new)]) =
  node_value other (before ++ (key, old) :: after).
Proof.
  intros Hne.
  assert (Hk : String.eqb key other = false)
    by (apply String.eqb_neq; congruence).
  rewrite !node_value_app, !node_value_cons. simpl. rewrite Hk.
  destruct (node_value other before); [reflexivity |].
  destruct (node_value other after); [reflexivity |].
  reflexivity.
Qed.

Lemma own_at_back (key : string) (before after : list (CacheNode Value))
    (new : Value) :
  ~ In key (map fst before) -> ~ In key (map fst after) ->
  node_value key (before ++ after ++ [(key, new)]) = Some new.
Proof.
  intros Hb Ha.
  rewrite !node_value_app, !node_value_absent by assumption.
  rewrite node_value_cons. simpl. now rewrite String.eqb_refl.
Qed.

Lemma permutation_to_back (key : string)
    (before after : list (CacheNode Value)) (old new : Value) :
  Permutation (map fst (before ++ (key, old) :: after))
              (map fst (before ++ after ++ [(key, new)])).
Proof.
  rewrite !map_app. simpl.
  rewrite <- Permutation_middle.
  rewrite app_assoc. rewrite <- Permutation_cons_append. reflexivity.
Qed.
End CacheFacts.

Section CacheProperties.
Import CacheSystem.
Context {Value : Type} {CV : Constructible Value} {AV : Assignable Value}.
Variable empty_value : Value.

Lemma held_cases (key : string) (c : LRUCache Value) :
  (exists before old after,
      find_if key (cache c) = Some (before, (key, old), after) /\
      cache c = before ++ (key, old) :: after /\
      ~ In key (map fst before) /\
      held key c = Some old) \/
  (find_if key (cache c) = None /\ ~ In key (keys c) /\ held key c = None).
Proof.
  unfold held, node_value, keys.
  destruct (find_if key (cache c)) as [[[before [k old]] after]|] eqn:Hfind.
  - left. destruct (find_if_Some _ _ _ _ _ Hfind) as (Hc & Hk & Hnot).
    simpl in Hk. subst k. now exists before, old, after.
  - right. repeat split. now apply find_if_None.
Qed.

Lemma get_at (key : string) (c : LRUCache Value)
    (before after : list (CacheNode Value)) (v : Value) :
  cache c = before ++ (key, v) :: after ->
  ~ In key (map fst before) ->
  get empty_value key c =
  ({| cache := before ++ after ++ [(key, snd (move_construct v))];
      maxSize := maxSize c |},
   (true, fst (move_construct (fst (move_construct v))))).
Proof.
  intros Hc Hnot. unfold get.
  rewrite Hc, find_if_at by exact Hnot.
  now destruct (move_construct v).
Qed.

(** X11.  The cache never grows beyond its capacity and never holds a key
    twice.  For a cache of capacity 1 or more that is in this state, [put]
    is defined and leaves it in this state, and so does [get]; the
    constructor starts in it. *)
Theorem LRUCache_stays_well_formed :
  forall (key : string) (value : argument Value) (f : frame Value)
         (c : LRUCache Value) (n : nat),
    well_formed c ->
    1 <= maxSize c ->
    (exists c' f',
        put key value f c = Some (c', f') /\
        well_formed c' /\ maxSize c' = maxSize c) /\
    well_formed (fst (get empty_value key c)) /\
    maxSize (fst (get empty_value key c)) = maxSize c /\
    well_formed (LRUCache_ctor (Value := Value) n).
Proof.
  intros key value f c n [Hnd Hlen] Hcap. unfold keys in Hnd.
  repeat split.
  - unfold put.
    destruct (held_cases key c)
      as [(before & old & after & Hfind & Hc & Hnot & _) | (Hfind & Hnot & _)];
      rewrite Hfind.
    + destruct (forward_assign old value f) as [assigned f'].
      eexists _, _. split; [reflexivity |]. split; [|reflexivity].
      split; unfold keys; simpl.
      * eapply Permutation_NoDup; [|exact Hnd].
        rewrite Hc. apply permutation_to_back.
      * rewrite Hc in Hlen. rewrite !length_app in *. simpl in *. lia.
    + destruct (maxSize c <=? List.length (cache c))%nat eqn:Hfull.
      * apply Nat.leb_le in Hfull.
        destruct (cache c) as [|node rest] eqn:Hc; [simpl in Hfull; lia |].
        destruct (forward_into_tuple value f) as [v f'].
        eexists _, _. split; [reflexivity |]. split; [|reflexivity].
        split; unfold keys; simpl.
        -- rewrite map_app. simpl.
           eapply Permutation_NoDup; [apply Permutation_cons_append |].
           simpl in Hnd. inversion Hnd; subst.
           constructor; [|assumption].
           intros Hin. apply Hnot. unfold keys. rewrite Hc. now right.
        -- rewrite length_app. simpl in *. lia.
      * apply Nat.leb_gt in Hfull.
        destruct (forward_into_tuple value f) as [v f'].
        eexists _, _. split; [reflexivity |]. split; [|reflexivity].
        split; unfold keys; simpl.
        -- rewrite map_app. simpl.
           eapply Permutation_NoDup; [apply Permutation_cons_append |].
           now constructor.
        -- rewrite length_app. simpl. lia.
  - unfold get, keys.
    destruct (held_cases key c)
      as [(before & old & after & Hfind & Hc & Hnot & _) | (Hfind & _)];
      rewrite Hfind.
    + destruct (move_construct old) as [result left]. simpl.
      eapply Permutation_NoDup; [|exact Hnd].
      rewrite Hc. apply permutation_to_back.
    + exact Hnd.
  - unfold get.
    destruct (held_cases key c)
      as [(before & old & after & Hfind & Hc & Hnot & _) | (Hfind & _)];
      rewrite Hfind.
    + destruct (move_construct old) as [result left]. simpl.
      rewrite Hc in Hlen. rewrite !length_app in *. simpl in *. lia.
    + exact Hlen.
  - unfold get.
    destruct (find_if key (cache c)) as [[[before [k old]] after]|].
    + now destruct (move_construct old).
    + reflexivity.
  - constructor.
  - simpl. lia.
Qed.

(** X12.  [put] is undefined in exactly one situation: the cache is empty
    and was built with capacity 0.  (It then asks for the front node of an
    empty vector and erases it.) *)
Theorem put_undefined_iff :
  forall (key : string) (value : argument Value) (f : frame Value)
         (c : LRUCache Value),
    put key value f c = None <-> cache c = [] /\ maxSize c = 0.
Proof.
  intros key value f c. unfold put. split.
  - destruct (find_if key (cache c)) as [[[before [k old]] after]|].
    + now destruct (forward_assign old value f).
    + destruct (maxSize c <=? List.length (cache c))%nat eqn:Hfull.
      * destruct (cache c) as [|node rest].
        -- intros _. apply Nat.leb_le in Hfull. simpl in Hfull. split; [reflexivity | lia].
        -- now destruct (forward_into_tuple value f).
      * now destruct (forward_into_tuple value f).
  - intros [Hc Hcap]. rewrite Hc, Hcap. reflexivity.
Qed.

(** X13.  A new key.  While there is room the node goes to the back and
    nothing else changes.  When the cache is full exactly the front node,
    the one used longest ago, is dropped; the others keep their order and
    their values.  The node holds the value built from the argument and
    moved once more. *)
Theorem put_new_key :
  forall (key : string) (value : argument Value) (f : frame Value)
         (c : LRUCache Value),
    ~ In key (keys c) ->
    cache c <> [] \/ 1 <= maxSize c ->
    put key value f c =
    Some ({| cache :=
               (if (size c <? maxSize c)%nat then cache c else tl (cache c))
               ++ [(key,
                    fst (move_construct (fst (forward_into_tuple value f))))];
             maxSize := maxSize c |},
          snd (forward_into_tuple value f)).
Proof.
  intros key value f c Hnot Hroom. unfold put, size.
  rewrite (proj2 (find_if_None key (cache c)) Hnot).
  destruct (maxSize c <=? List.length (cache c))%nat eqn:Hfull.
  - assert (Hlt : (List.length (cache c) <? maxSize c)%nat = false).
    { apply Nat.ltb_ge. now apply Nat.leb_le. }
    rewrite Hlt.
    destruct (cache c) as [|node rest] eqn:Hc.
    + apply Nat.leb_le in Hfull. simpl in Hfull.
      destruct Hroom as [Hroom | Hroom]; [now contradiction Hroom | lia].
    + now destruct (forward_into_tuple value f).
  - assert (Hlt : (List.length (cache c) <? maxSize c)%nat = true).
    { apply Nat.ltb_lt. now apply Nat.leb_gt. }
    rewrite Hlt. now destruct (forward_into_tuple value f).
Qed.

(** X14.  A key the cache holds.  [put] assigns the value to the node of
    the key and makes it the most recent one: the key goes to the back,
    the other keys keep their order and their values, and no node is
    dropped. *)
Theorem put_known_key :
  forall (key : string) (value : argument Value) (f : frame Value)
         (c : LRUCache Value) (old : Value),
    NoDup (keys c) ->
    held key c = Some old ->
    exists c',
      put key value f c = Some (c', snd (forward_assign old value f)) /\
      keys c' = remove string_dec key (keys c) ++ [key] /\
      held key c' = Some (fst (forward_assign old value f)) /\
      (forall other, other <> key -> held other c' = held other c) /\
      size c' = size c /\ maxSize c' = maxSize c.
Proof.
  intros key value f c old Hnd Hheld.
  destruct (held_cases key c)
    as [(before & old' & after & Hfind & Hc & Hnot & Hold) | (_ & _ & Hnone)];
    [|congruence].
  assert (old' = old) by congruence. subst old'.
  unfold put. rewrite Hfind.
  destruct (forward_assign old value f) as [assigned f'] eqn:Hfwd.
  eexists. split; [reflexivity |].
  unfold keys, held, size in *. simpl. rewrite Hc in *.
  repeat split.
  - now apply keys_to_back.
  - apply own_at_back; [exact Hnot |].
    rewrite map_app in Hnd. simpl in Hnd.
    apply NoDup_remove_2 in Hnd. intros Hin. apply Hnd.
    apply in_or_app. now right.
  - intros other Hother. now apply others_to_back.
  - rewrite !length_app. simpl. lia.
Qed.

(** X15.  A hit.  [get] returns [true] and the value of the node, moved
    twice on its way out; the key becomes the most recent one, the other
    keys keep their order and their values.  The node stays in the cache
    and holds what the move left of the value, so that a second [get] of
    the key is a hit again and returns that. *)
Theorem get_hit :
  forall (key : string) (c : LRUCache Value) (v : Value),
    NoDup (keys c) ->
    held key c = Some v ->
    let c' := fst (get empty_value key c) in
    snd (get empty_value key c) =
      (true, fst (move_construct (fst (move_construct v)))) /\
    keys c' = remove string_dec key (keys c) ++ [key] /\
    held key c' = Some (snd (move_construct v)) /\
    (forall other, other <> key -> held other c' = held other c) /\
    snd (get empty_value key c') =
      (true,
       fst (move_construct (fst (move_construct (snd (move_construct v)))))).
Proof.
  intros key c v Hnd Hheld c'.
  destruct (held_cases key c)
    as [(before & old & after & Hfind & Hc & Hnot & Hold) | (_ & _ & Hnone)];
    [|congruence].
  assert (old = v) by congruence. subst old.
  assert (Hafter : ~ In key (map fst after)).
  { unfold keys in Hnd. rewrite Hc, map_app in Hnd. simpl in Hnd.
    apply NoDup_remove_2 in Hnd. intros Hin. apply Hnd.
    apply in_or_app. now right. }
  assert (Hc' : cache c' = before ++ after ++ [(key, snd (move_construct v))]).
  { subst c'. unfold get. rewrite Hfind.
    now destruct (move_construct v). }
  assert (Hheld' : held key c' = Some (snd (move_construct v))).
  { unfold held. rewrite Hc'. now apply own_at_back. }
  repeat split.
  - unfold get. rewrite Hfind. now destruct (move_construct v).
  - unfold keys. rewrite Hc', Hc. apply keys_to_back; [exact Hnot |].
    unfold keys in Hnd. now rewrite Hc in Hnd.
  - exact Hheld'.
  - intros other Hother. unfold held. rewrite Hc', Hc.
    now apply others_to_back.
  - unfold get.
    rewrite Hc', app_assoc, find_if_at.
    + now destruct (move_construct (snd (move_construct v))).
    + rewrite map_app. intros Hin. apply in_app_or in Hin. tauto.
Qed.

(** X16.  A miss.  [get] of a key the cache does not hold returns [false]
    with a copy of the empty value and leaves the cache as it is: nothing
    is reordered and nothing is inserted. *)
Theorem get_miss :
  forall (key : string) (c : LRUCache Value),
    ~ In key (keys c) ->
    get empty_value key c = (c, (false, copy_construct empty_value)).
Proof.
  intros key c Hnot. unfold get.
  now rewrite (proj2 (find_if_None key (cache c)) Hnot).
Qed.

(** X17.  What is put in comes out.  When construction and assignment by
    move hand over the value unchanged, the next [get] of a key returns
    what [put] was given for it, whether the key was new or known: the
    temporary, or what the variable held that was passed under
    [std::move]; for a variable passed by name, and for a [const] one
    passed under [std::move], the copy of it that copy assignment made for
    a known key and the copy constructor for a new one. *)
Theorem put_then_get :
  forall (key : string) (value : argument Value) (f f' : frame Value)
         (c c' : LRUCache Value),
    (forall x : Value, fst (move_construct x) = x) ->
    (forall this x : Value, fst (move_assign this x) = x) ->
    NoDup (keys c) ->
    put key value f c = Some (c', f') ->
    snd (get empty_value key c') =
    (true,
     match value with
     | xvalue x => f x
     | prvalue v => v
     | lvalue x | const_xvalue x =>
         match held key c with
         | Some old => copy_assign old (f x)
         | None => copy_construct (f x)
         end
     end).
Proof.
  intros key value f f' c c' Hmc Hma Hnd Hput.
  unfold put in Hput.
  destruct (held_cases key c)
    as [(before & old & after & Hfind & Hc & Hnot & Hheld) |
        (Hfind & Hnot & Hheld)];
    rewrite Hfind in Hput; rewrite Hheld.
  - assert (Hafter : ~ In key (map fst after)).
    { unfold keys in Hnd. rewrite Hc, map_app in Hnd. simpl in Hnd.
      apply NoDup_remove_2 in Hnd. intros Hin. apply Hnd.
      apply in_or_app. now right. }
    assert (Hassigned :
              fst (forward_assign old value f) =
              match value with
              | xvalue x => f x
              | prvalue v => v
              | lvalue x | const_xvalue x => copy_assign old (f x)
              end).
    { destruct value as [x|x|x|v]; simpl; try reflexivity.
      - specialize (Hma old (f x)).
        now destruct (move_assign old (f x)).
      - apply Hma. }
    destruct (forward_assign old value f) as [assigned f1].
    simpl in Hassigned. injection Hput as <- _.
    rewrite (get_at key _ (before ++ after) [] assigned).
    + simpl. now rewrite !Hmc, Hassigned.
    + simpl. now rewrite app_assoc.
    + rewrite map_app. intros Hin. apply in_app_or in Hin. tauto.
  - assert (Hbuilt :
              fst (forward_into_tuple value f) =
              match value with
              | xvalue x => f x
              | prvalue v => v
              | lvalue x | const_xvalue x => copy_construct (f x)
              end).
    { destruct value as [x|x|x|v]; simpl; try reflexivity.
      - specialize (Hmc (f x)).
        now destruct (move_construct (f x)).
      - apply Hmc. }
    destruct (forward_into_tuple value f) as [built f1].
    simpl in Hbuilt.
    assert (Hget : forall nodes,
               ~ In key (map fst nodes) ->
               snd (get empty_value key
                      {| cache := nodes ++ [(key, fst (move_construct built))];
                         maxSize := maxSize c |}) = (true, built)).
    { intros nodes Hnodes.
      rewrite (get_at key _ nodes [] (fst (move_construct built)));
        [simpl; now rewrite !Hmc | reflexivity | exact Hnodes]. }
    rewrite <- Hbuilt.
    destruct (maxSize c <=? List.length (cache c))%nat.
    + unfold keys in Hnot.
      destruct (cache c) as [|node rest]; [discriminate |].
      injection Hput as <- _. apply Hget.
      intros Hin. apply Hnot. now right.
    + injection Hput as <- _. now apply Hget.
Qed.
End CacheProperties.

Lemma in_rest_of_back {A : Type} (l rest : list A) (x node : A) :
  l ++ [x] = node :: rest -> 2 <= List.length (node :: rest) -> In x rest.
Proof.
  destruct l as [|a l]; simpl; intros Heq Hlen.
  - injection Heq as _ <-. simpl in Hlen. lia.
  - injection Heq as _ <-. apply in_or_app. right. now left.
Qed.

(** X18.  Reading protects.  In a cache of capacity 2 or more, a key that
    [get] has just found is not the node the next [put] of a new key
    drops: it is still in the cache afterwards. *)
Theorem read_key_survives_next_put :
  forall (Value : Type) (CV : Constructible Value) (AV : Assignable Value)
         (empty_value : Value) (key new_key : string)
         (value : argument Value) (f f' : frame Value)
         (c c' : CacheSystem.LRUCache Value),
    In key (CacheSystem.keys c) ->
    ~ In new_key (CacheSystem.keys c) ->
    2 <= CacheSystem.maxSize c ->
    CacheSystem.put new_key value f
      (fst (CacheSystem.get empty_value key c)) = Some (c', f') ->
    In key (CacheSystem.keys c').
Proof.
  intros Value CV AV empty_value key new_key value f f' c c'
    Hin Hnew Hcap Hput.
  destruct (held_cases key c)
    as [(before & old & after & Hfind & Hc & Hnot & _) | (_ & Hnone & _)];
    [|contradiction].
  rewrite (get_at empty_value key c before after old Hc Hnot) in Hput.
  simpl in Hput.
  set (left := snd (move_construct old)) in *.
  assert (Hne : new_key <> key).
  { intros ->. apply Hnew. unfold CacheSystem.keys.
    rewrite Hc, map_app. apply in_or_app. right. now left. }
  assert (Hnew' : ~ In new_key
                    (map fst (before ++ after ++ [(key, left)]))).
  { intros Hin'. apply Hnew. unfold CacheSystem.keys. rewrite Hc.
    rewrite !map_app in *. simpl in *.
    apply in_app_or in Hin'. destruct Hin' as [Hin' | Hin'].
    - apply in_or_app. now left.
    - apply in_app_or in Hin'. destruct Hin' as [Hin' | [Hin' | []]].
      + apply in_or_app. right. now right.
      + congruence. }
  unfold CacheSystem.put in Hput. simpl in Hput.
  rewrite (proj2 (find_if_None new_key _) Hnew') in Hput.
  destruct (CacheSystem.maxSize c <=?
            List.length (before ++ after ++ [(key, left)]))%nat eqn:Hfull.
  - apply Nat.leb_le in Hfull.
    destruct (before ++ after ++ [(key, left)]) as [|node rest] eqn:Hnodes;
      [simpl in Hfull; lia |].
    destruct (forward_into_tuple value f) as [v f1].
    injection Hput as <- _. unfold CacheSystem.keys. simpl.
    rewrite map_app. apply in_or_app. left.
    rewrite app_assoc in Hnodes.
    apply (in_map fst) with (x := (key, left)).
    apply in_rest_of_back with (before ++ after) node; [exact Hnodes |].
    lia.
  - destruct (forward_into_tuple value f) as [v f1].
    injection Hput as <- _. unfold CacheSystem.keys. simpl.
    rewrite !map_app. simpl.
    apply in_or_app. left. apply in_or_app. right.
    apply in_or_app. right. now left.
Qed.

(** ** Serialization *)

Lemma quote_free_app (a b : string) :
  quote_free (a ++ b)%string = quote_free a && quote_free b.
Proof.
  induction a as [|ch a IH]; simpl.
  - reflexivity.
  - now rewrite IH, andb_assoc.
Qed.

Lemma quote_free_uint (d : Decimal.uint) :
  quote_free (NilEmpty.string_of_uint d) = true.
Proof. induction d; simpl; auto. Qed.

Lemma quote_free_to_string (v : Z) :
  quote_free (AdvancedTemplates.to_string v) = true.
Proof.
  unfold AdvancedTemplates.to_string, NilZero.string_of_int,
    NilZero.string_of_uint.
  destruct (Z.to_int v) as [d | d]; destruct d; simpl;
    auto using quote_free_uint.
Qed.

(** [std::to_string] gives different integers different strings. *)
Lemma to_string_injective (v1 v2 : Z) :
  AdvancedTemplates.to_string v1 = AdvancedTemplates.to_string v2 -> v1 = v2.
Proof.
  unfold AdvancedTemplates.to_string. intros Heq.
  apply DecimalZ.to_int_inj.
  assert (Hparse : forall v,
             NilZero.int_of_string (NilZero.string_of_int (Z.to_int v)) =
             Some (Z.to_int v)).
  { intros v. apply NilZero.isi; destruct v as [|p|p]; simpl;
      try discriminate; intros [= Hnil];
      now apply DecimalPos.Unsigned.to_uint_nonnil in Hnil. }
  pose proof (Hparse v1) as H1. rewrite Heq, Hparse in H1.
  now injection H1.
Qed.

Lemma append_same_prefix (p a b : string) :
  (p ++ a)%string = (p ++ b)%string -> a = b.
Proof.
  induction p as [|ch p IH]; simpl; intros Heq.
  - exact Heq.
  - injection Heq as Heq. now apply IH.
Qed.

Lemma append_same_last (ch : ascii) (a b : string) :
  (a ++ String ch "")%string = (b ++ String ch "")%string -> a = b.
Proof.
  revert b; induction a as [|x a IH]; intros [|y b]; simpl; intros Heq.
  - reflexivity.
  - injection Heq as _ Heq. now destruct b.
  - injection Heq as _ Heq. now destruct a.
  - injection Heq as -> Heq. f_equal. now apply IH.
Qed.

(** Where the name ends is settled by the last single quote. *)
Lemma name_and_value_split (n1 n2 d1 d2 : string) :
  quote_free d1 = true -> quote_free d2 = true ->
  (n1 ++ "', value:" ++ d1 ++ "}")%string =
  (n2 ++ "', value:" ++ d2 ++ "}")%string ->
  n1 = n2 /\ d1 = d2.
Proof.
  intros Hd1 Hd2.
  revert n2; induction n1 as [|ch n1 IH]; intros [|ch2 n2] Heq.
  - split; [reflexivity |].
    simpl in Heq. injection Heq as Heq. now apply append_same_last in Heq.
  - exfalso. simpl in Heq. injection Heq as _ Heq.
    apply (f_equal quote_free) in Heq.
    rewrite !quote_free_app in Heq. simpl in Heq.
    rewrite ?quote_free_app, ?Hd1, ?andb_false_r in Heq. simpl in Heq.
    rewrite ?andb_false_r in Heq. discriminate.
  - exfalso. simpl in Heq. injection Heq as _ Heq.
    apply (f_equal quote_free) in Heq.
    rewrite !quote_free_app in Heq. simpl in Heq.
    rewrite ?quote_free_app, ?Hd2, ?andb_false_r in Heq. simpl in Heq.
    rewrite ?andb_false_r in Heq. discriminate.
  - simpl in Heq. injection Heq as -> Heq.
    destruct (IH n2 Heq) as [-> ->]. now split.
Qed.

(** X19.  Serialization tells objects apart.  Two objects that
    [UniversalSerializer::serialize] (or [toString]) turns into the same
    string have the same name and the same value, whatever characters the
    names contain. *)
Theorem serialize_injective :
  forall (type_name : string) (o1 o2 : AdvancedTemplates.SerializableObject),
    AdvancedTemplates.serialize type_name o1 =
    AdvancedTemplates.serialize type_name o2 ->
    o1 = o2.
Proof.
  intros type_name [n1 v1] [n2 v2].
  unfold AdvancedTemplates.serialize, AdvancedTemplates.toString; simpl.
  intros Heq.
  apply append_same_prefix in Heq. simpl in Heq.
  injection Heq as Heq.
  apply name_and_value_split in Heq;
    [|apply quote_free_to_string | apply quote_free_to_string].
  destruct Heq as [-> Hv]. apply to_string_injective in Hv. now subst.
Qed.

(** X20.  With [std::sort] as the library has it, [execute_all] of the
    scheduler that sorts by priority leaves the tasks that were submitted,
    each as often as it was submitted, in an order in which no task stands
    before one of higher priority, and calls [execute] on them in this
    order; and when the vector holds at most sixteen tasks, the tasks of
    one priority stand and run in the order of their submission. *)
Theorem up_to_sixteen_tasks_keep_submission_order :
  forall (World : Type) (s : ModernAsyncDesign.TaskScheduler World)
         (w : World),
    let r := ModernAsyncDesign.execute_all Libstdcxx.sort s w in
    let order := ModernAsyncDesign.tasks (object_after r) in
    Permutation (ModernAsyncDesign.tasks s) order /\
    StronglySorted
      (fun a b =>
         (ModernAsyncDesign.priority a >= ModernAsyncDesign.priority b)%Z)
      order /\
    completion_of r = in_order (map ModernAsyncDesign.execute order) w /\
    (List.length (ModernAsyncDesign.tasks s) <= 16 ->
     forall p : Z,
       filter (fun t => (ModernAsyncDesign.priority t =? p)%Z) order =
       filter (fun t => (ModernAsyncDesign.priority t =? p)%Z)
         (ModernAsyncDesign.tasks s)).
Proof.
  intros World s w r order.
  assert (Horder : order =
                   Libstdcxx.sort ModernAsyncDesign.higher_priority
                     (ModernAsyncDesign.tasks s)).
  { subst order r. unfold ModernAsyncDesign.execute_all, object_after; simpl.
    now destruct (for_each ModernAsyncDesign.execute _ w). }
  destruct (LibstdcxxFacts.sort_contract ModernAsyncDesign.higher_priority
              (ModernAsyncDesign.tasks s) higher_priority_order)
    as [Hperm Hsorted].
  split; [now rewrite Horder |].
  split; [rewrite Horder; now apply sorted_by_priority |].
  split.
  - rewrite Horder, <- for_each_in_order.
    subst r. unfold ModernAsyncDesign.execute_all; simpl.
    apply completion_of_pair.
  - intros Hsmall p. rewrite Horder.
    apply LibstdcxxFacts.sort_small_keeps_ties;
      [exact higher_priority_order | | exact Hsmall].
    intros a b Ha Hb. apply Z.eqb_eq in Ha, Hb.
    unfold ModernAsyncDesign.higher_priority, ModernAsyncDesign.getPriority.
    rewrite Ha, Hb, Z.gtb_ltb. apply Z.ltb_irrefl.
Qed.

(** ** The further properties on concrete inputs *)

Lemma ResourceManager_stays_consistent_witness :
  let r := MoveSemantics.ctor 3 "r" in
  let this := MoveSemantics.default_ctor in
  MoveSemantics.consistent r /\
  MoveSemantics.consistent (MoveSemantics.copy_ctor r) /\
  exists assigned,
    MoveSemantics.copy_assign_other this r = Some assigned /\
    MoveSemantics.consistent assigned.
Proof.
  intros r this.
  assert (Hr : MoveSemantics.consistent r) by reflexivity.
  destruct (ResourceManager_stays_consistent 3 "r" this r)
    as (_ & _ & Hkeeps).
  destruct (Hkeeps Hr) as (Hcopy & _ & _ & _ & _ & Hassign).
  split; [exact Hr |]. split; [exact Hcopy | exact Hassign].
Defined.

Lemma ResourceManager_copy_is_equal_witness :
  let r := MoveSemantics.ctor 3 "r" in
  MoveSemantics.consistent r /\
  MoveSemantics.copy_ctor r =
    {| MoveSemantics.data := Some [0%Z; 1%Z; 2%Z];
       MoveSemantics.size := 3;
       MoveSemantics.name := "r_copy" |}.
Proof.
  intros r.
  assert (Hr : MoveSemantics.consistent r) by reflexivity.
  split; [exact Hr |].
  exact (proj1 (ResourceManager_copy_is_equal MoveSemantics.default_ctor r Hr)).
Defined.

Lemma ResourceManager_move_round_trip_witness :
  "a" <> "b" /\
  let f' := MoveSemantics.move_assign_at "a" "b"
              (MoveSemantics.move_assign_at "b" "a" two_resources) in
  f' "a" = two_resources "a" /\
  MoveSemantics.moved_from (f' "b").
Proof.
  assert (Hne : "a" <> "b") by discriminate.
  split; [exact Hne |].
  destruct (ResourceManager_move_round_trip "a" "b" two_resources Hne)
    as (Ha & Hb & _).
  split; [exact Ha | exact Hb].
Defined.

Lemma schedule_task_hands_over_witness :
  let args : list (argument MoveSemantics.ResourceManager) :=
    [lvalue "a"; xvalue "b"] in
  NoDup (names_of args) /\
  exists task,
    TaskScheduler.tasks
      (fst (TaskScheduler.schedule_task (World := Console) writes_names args
              two_resources TaskScheduler.Scheduler_ctor)) = [] ++ [task] /\
    invoke task = writes_names (map (handed_over two_resources) args).
Proof.
  intros args.
  assert (Hnames : NoDup (names_of args)).
  { simpl. constructor.
    - intros [Hin | []]. discriminate Hin.
    - constructor; [intros [] | constructor]. }
  split; [exact Hnames |].
  exact (schedule_task_hands_over Console writes_names args two_resources
           TaskScheduler.Scheduler_ctor Hnames).
Defined.

Lemma anonymous_tasks_hold_targets_witness :
  TaskScheduler.reachable mixed_batch /\
  Forall (fun task => exists target, task = Some target)
    (TaskScheduler.tasks mixed_batch).
Proof.
  split; [exact mixed_batch_reachable |].
  exact (anonymous_tasks_hold_targets Console mixed_batch
           mixed_batch_reachable).
Defined.

Lemma getTaskCount_accounting_witness :
  TaskScheduler.reachable mixed_batch /\
  TaskScheduler.getTaskCount
    (TaskScheduler.schedule_named_task "alpha" None mixed_batch) = 4 + 0 /\
  TaskScheduler.getTaskCount
    (TaskScheduler.schedule_named_task "gamma" None mixed_batch) = 4 + 1.
Proof.
  split; [exact mixed_batch_reachable |].
  split.
  - exact (proj1 (proj2 (getTaskCount_accounting Console _ _ (says "x") []
                           two_resources "alpha" None mixed_batch []
                           mixed_batch_reachable))).
  - exact (proj1 (proj2 (getTaskCount_accounting Console _ _ (says "x") []
                           two_resources "gamma" None mixed_batch []
                           mixed_batch_reachable))).
Defined.

Lemma named_submissions_commute_witness :
  "alpha" <> "beta" /\
  TaskScheduler.schedule_named_task "alpha" (Some (writes "1"))
    (TaskScheduler.schedule_named_task "beta" (Some (writes "2"))
       TaskScheduler.Scheduler_ctor) =
  TaskScheduler.schedule_named_task "beta" (Some (writes "2"))
    (TaskScheduler.schedule_named_task "alpha" (Some (writes "1"))
       TaskScheduler.Scheduler_ctor).
Proof.
  assert (Hne : "alpha" <> "beta") by discriminate.
  split; [exact Hne |].
  exact (proj1 (named_submissions_commute Console _ _ "alpha" "beta"
                  (Some (writes "1")) (Some (writes "2")) (says "x") []
                  two_resources TaskScheduler.Scheduler_ctor Hne)).
Defined.


Lemma distinct_priorities_fix_the_order_witness :
  StdSort.contract
    (@StdSort.sort_keeping_ties (ModernAsyncDesign.Task Console)) /\
  StdSort.contract
    (@StdSort.sort_swapping_ties (ModernAsyncDesign.Task Console)) /\
  NoDup (map ModernAsyncDesign.getPriority
           (ModernAsyncDesign.tasks priorities_1_5_3)) /\
  ModernAsyncDesign.execute_all StdSort.sort_keeping_ties
    priorities_1_5_3 [] =
  ModernAsyncDesign.execute_all StdSort.sort_swapping_ties
    priorities_1_5_3 [].
Proof.
  assert (Hnd : NoDup (map ModernAsyncDesign.getPriority
                         (ModernAsyncDesign.tasks priorities_1_5_3))).
  { simpl. repeat constructor; simpl; intuition discriminate. }
  split; [apply StdSortFacts.sort_keeping_ties_contract |].
  split; [apply StdSortFacts.sort_swapping_ties_contract |].
  split; [exact Hnd |].
  exact (distinct_priorities_fix_the_order Console
           StdSort.sort_keeping_ties StdSort.sort_swapping_ties
           priorities_1_5_3 []
           StdSortFacts.sort_keeping_ties_contract
           StdSortFacts.sort_swapping_ties_contract Hnd).
Defined.

Lemma three_objects_well_formed : CacheSystem.well_formed three_objects.
Proof.
  split; simpl.
  - repeat constructor; simpl; intuition discriminate.
  - lia.
Defined.

(** The three [put] of the demonstration fill the cache in this order. *)
Example three_objects_by_put :
  let put key name size c :=
    match c with
    | Some cache =>
        option_map fst
          (CacheSystem.put key
             (prvalue (CacheSystem.LargeObject_ctor name size))
             one_object cache)
    | None => None
    end in
  put "obj3" "three" 3
    (put "obj2" "two" 2
       (put "obj1" "one" 1 (Some (CacheSystem.LRUCache_ctor 3)))) =
  Some three_objects.
Proof. reflexivity. Qed.

Lemma LRUCache_stays_well_formed_witness :
  CacheSystem.well_formed three_objects /\
  1 <= CacheSystem.maxSize three_objects /\
  exists c' f',
    CacheSystem.put "obj4" (xvalue "big") one_object three_objects =
      Some (c', f') /\
    CacheSystem.well_formed c' /\
    CacheSystem.maxSize c' = CacheSystem.maxSize three_objects.
Proof.
  assert (Hcap : 1 <= CacheSystem.maxSize three_objects) by (simpl; lia).
  split; [exact three_objects_well_formed |]. split; [exact Hcap |].
  exact (proj1 (LRUCache_stays_well_formed empty_object "obj4"
                  (xvalue "big") one_object three_objects 0
                  three_objects_well_formed Hcap)).
Defined.

Lemma put_new_key_witness :
  ~ In "obj4" (CacheSystem.keys three_objects) /\
  CacheSystem.keys
    (match CacheSystem.put "obj4" (xvalue "big") one_object three_objects with
     | Some (c', _) => c'
     | None => three_objects
     end) = ["obj2"; "obj3"; "obj4"].
Proof.
  assert (Hnew : ~ In "obj4" (CacheSystem.keys three_objects)).
  { simpl. intuition discriminate. }
  split; [exact Hnew |].
  rewrite (put_new_key "obj4" (xvalue "big") one_object three_objects Hnew
             (or_intror (Nat.le_trans 1 2 3 (le_S 1 1 (le_n 1))
                           (le_S 2 2 (le_n 2))))).
  reflexivity.
Defined.

Lemma put_known_key_witness :
  NoDup (CacheSystem.keys three_objects) /\
  CacheSystem.held "obj1" three_objects =
    Some (CacheSystem.LargeObject_ctor "one" 1) /\
  exists c',
    CacheSystem.put "obj1" (lvalue "big") one_object three_objects =
      Some (c', one_object) /\
    CacheSystem.keys c' = ["obj2"; "obj3"; "obj1"] /\
    CacheSystem.held "obj1" c' =
      Some {| CacheSystem.data := [0%Z; 1%Z; 2%Z; 3%Z];
              CacheSystem.name := "big one_assigned" |}.
Proof.
  assert (Hheld : CacheSystem.held "obj1" three_objects =
                  Some (CacheSystem.LargeObject_ctor "one" 1))
    by reflexivity.
  split; [exact (proj1 three_objects_well_formed) |].
  split; [exact Hheld |].
  destruct (put_known_key "obj1" (lvalue "big") one_object three_objects _
              (proj1 three_objects_well_formed) Hheld)
    as (c' & Hput & Hkeys & Hnew & _).
  exists c'. split; [exact Hput |]. split; [exact Hkeys | exact Hnew].
Defined.

Lemma get_hit_witness :
  NoDup (CacheSystem.keys three_objects) /\
  CacheSystem.held "obj1" three_objects =
    Some (CacheSystem.LargeObject_ctor "one" 1) /\
  snd (CacheSystem.get empty_object "obj1" three_objects) =
    (true, {| CacheSystem.data := [0%Z]; CacheSystem.name := "one" |}) /\
  CacheSystem.keys (fst (CacheSystem.get empty_object "obj1" three_objects)) =
    ["obj2"; "obj3"; "obj1"] /\
  snd (CacheSystem.get empty_object "obj1"
         (fst (CacheSystem.get empty_object "obj1" three_objects))) =
    (true, {| CacheSystem.data := []; CacheSystem.name := "" |}).
Proof.
  assert (Hheld : CacheSystem.held "obj1" three_objects =
                  Some (CacheSystem.LargeObject_ctor "one" 1))
    by reflexivity.
  split; [exact (proj1 three_objects_well_formed) |].
  split; [exact Hheld |].
  destruct (get_hit empty_object "obj1" three_objects _
              (proj1 three_objects_well_formed) Hheld)
    as (Hget & Hkeys & _ & _ & Hagain).
  split; [exact Hget |]. split; [exact Hkeys | exact Hagain].
Defined.

Lemma get_miss_witness :
  ~ In "obj9" (CacheSystem.keys three_objects) /\
  CacheSystem.get empty_object "obj9" three_objects =
  (three_objects,
   (false, {| CacheSystem.data := []; CacheSystem.name := "_copy" |})).
Proof.
  assert (Hnew : ~ In "obj9" (CacheSystem.keys three_objects)).
  { simpl. intuition discriminate. }
  split; [exact Hnew |].
  exact (get_miss empty_object "obj9" three_objects Hnew).
Defined.

Lemma LargeObject_moves_hand_over :
  (forall x : CacheSystem.LargeObject, fst (move_construct x) = x) /\
  (forall this x : CacheSystem.LargeObject, fst (move_assign this x) = x).
Proof. split; [intros [d n] | intros this [d n]]; reflexivity. Defined.

Lemma put_then_get_witness :
  exists c' f',
    CacheSystem.put "obj4" (xvalue "big") one_object three_objects =
      Some (c', f') /\
    snd (CacheSystem.get empty_object "obj4" c') =
      (true, CacheSystem.LargeObject_ctor "big one" 4).
Proof.
  destruct (CacheSystem.put "obj4" (xvalue "big") one_object three_objects)
    as [[c' f']|] eqn:Hput; [|discriminate Hput].
  exists c', f'. split; [reflexivity |].
  exact (put_then_get empty_object "obj4" (xvalue "big") one_object f'
           three_objects c'
           (proj1 LargeObject_moves_hand_over)
           (proj2 LargeObject_moves_hand_over)
           (proj1 three_objects_well_formed) Hput).
Defined.

Lemma read_key_survives_next_put_witness :
  exists c' f',
    CacheSystem.put "obj4" (xvalue "big") one_object
      (fst (CacheSystem.get empty_object "obj1" three_objects)) =
      Some (c', f') /\
    In "obj1" (CacheSystem.keys c') /\
    ~ In "obj2" (CacheSystem.keys c').
Proof.
  destruct (CacheSystem.put "obj4" (xvalue "big") one_object
              (fst (CacheSystem.get empty_object "obj1" three_objects)))
    as [[c' f']|] eqn:Hput; [|discriminate Hput].
  exists c', f'. split; [reflexivity |]. split.
  - apply (read_key_survives_next_put _ _ _ empty_object "obj1" "obj4"
             (xvalue "big") one_object f' three_objects c').
    + simpl. now left.
    + simpl. intuition discriminate.
    + simpl. lia.
    + exact Hput.
  - injection Hput as <- _. simpl. intuition discriminate.
Defined.

Lemma serialize_injective_witness :
  let o1 := AdvancedTemplates.SerializableObject_ctor "it's" (-42) in
  let o2 := AdvancedTemplates.SerializableObject_ctor ("it" ++ "'s") (8 - 50) in
  AdvancedTemplates.serialize "T" o1 = "T:{name:'it's', value:-42}" /\
  AdvancedTemplates.serialize "T" o1 = AdvancedTemplates.serialize "T" o2 /\
  o1 = o2.
Proof.
  intros o1 o2.
  assert (Hsame : AdvancedTemplates.serialize "T" o1 =
                  AdvancedTemplates.serialize "T" o2) by reflexivity.
  split; [reflexivity |]. split; [exact Hsame |].
  exact (serialize_injective "T" o1 o2 Hsame).
Defined.

Lemma up_to_sixteen_tasks_keep_submission_order_witness :
  let s := submit_all (firstn 16 seventeen_names) in
  List.length (ModernAsyncDesign.tasks s) <= 16 /\
  forall p : Z,
    filter (fun t => (ModernAsyncDesign.priority t =? p)%Z)
      (ModernAsyncDesign.tasks
         (object_after (ModernAsyncDesign.execute_all Libstdcxx.sort s []))) =
    filter (fun t => (ModernAsyncDesign.priority t =? p)%Z)
      (ModernAsyncDesign.tasks s).
Proof.
  intros s.
  assert (Hsmall : List.length (ModernAsyncDesign.tasks s) <= 16)
    by (vm_compute; lia).
  split; [exact Hsmall |].
  exact (proj2 (proj2 (proj2
           (up_to_sixteen_tasks_keep_submission_order Console s [])))
           Hsmall).
Defined.
